(** * A shallow embedding of the event dispatcher

    The development follows the TypeScript sources of the package:
    [BaseEvent], the registry operations that [SimpleEventDispatcher],
    [NodeEventDispatcher] and [BrowserEventDispatcher] implement with the
    same text, their three [dispatch] methods, and the subscriber adapter
    of [AbstractEventDispatcher].

    Modelling conventions.
    - A function object is a reference ([Listener], a natural number);
      [===] on listeners is equality of references.
    - A JavaScript [Map] keyed by strings is a [gmap string _]; an array
      is a list, mutated in place through [alter] on its map entry.
    - A priority is an integer ([Z]).
    - The platform bus (Node [EventEmitter], browser [EventTarget]) holds
      no handler: [addListener] never attaches one (the browser class
      builds [wrappedListener] but does not pass it to the target).  The
      mirrored call that opens [dispatch] therefore runs no handler; what
      is left of it is [emit]: a Node [EventEmitter] throws on an
      ["error"] event nobody handles.
    - [getListeners] calls itself; its model counts the nested calls the
      stack has room for, and running out of room is a [RangeError]. *)

From stdpp Require Import base gmap strings list fin_maps sorting.
From Stdlib Require Import ZArith Lia.

Local Open Scope Z_scope.
Local Open Scope nat_scope.

(** ** JavaScript values used by the dispatcher *)

Definition Listener := nat.

Record ListenerEntry := Entry { listener : Listener; priority : Z }.

#[global] Instance ListenerEntry_eq_dec : EqDecision ListenerEntry.
Proof. solve_decision. Defined.

Inductive JsError :=
| TypeError
| RangeError
| UnhandledError
| UserError (tag : nat).

Inductive Completion (A : Type) :=
| Return (a : A)
| Throw (err : JsError).
Arguments Return {A} a.
Arguments Throw {A} err.

(** What [getListeners] hands back: an array of listeners, or the [Map]
    from names to whatever the nested call returned. *)
#[warnings="-register-all"]
Inductive Listing :=
| Arr (fs : list Listener)
| AllMap (m : list (string * Listing)).

(** [if (eventName)]: [null], [undefined] and the empty string are falsy. *)
Definition truthy (eventName : option string) : option string :=
  match eventName with
  | Some s => if decide (s = "") then None else Some s
  | None => None
  end.

(** ** [Array.prototype] helpers *)

Section Arrays.
Context {A : Type}.

(** [findIndex]: index of the first element satisfying the predicate. *)
Fixpoint findIndex (p : A → bool) (l : list A) : option nat :=
  match l with
  | [] => None
  | x :: l' => if p x then Some 0 else S <$> findIndex p l'
  end.

(** [find]: the first element satisfying the predicate. *)
Fixpoint find (p : A → bool) (l : list A) : option A :=
  match l with
  | [] => None
  | x :: l' => if p x then Some x else find p l'
  end.

(** [splice(index, 1)]. *)
Definition splice1 (index : nat) (l : list A) : list A := delete index l.

(** [sort(compareFn)].  The language requires the sort to be stable;
    for a consistent comparator every stable sort returns the same
    array, here computed by insertion: [x] moves right past the
    elements [y] with [compareFn x y > 0]. *)
Fixpoint sort_insert (compareFn : A → A → Z) (x : A) (l : list A) : list A :=
  match l with
  | [] => [x]
  | y :: l' =>
      if (0 <? compareFn x y)%Z then y :: sort_insert compareFn x l'
      else x :: l
  end.

Definition Array_sort (compareFn : A → A → Z) (l : list A) : list A :=
  foldr (sort_insert compareFn) [] l.
End Arrays.

(** ** The registry shared by the three dispatcher classes *)

Record Dispatcher := mkDispatcher {
  listeners : gmap string (list ListenerEntry);
  sorted : gmap string bool;
  subscriberListeners : gmap nat (list (string * Listener));
}.

Definition new_Dispatcher : Dispatcher :=
  {| listeners := ∅; sorted := ∅; subscriberListeners := ∅ |}.

Definition set_listeners (m : gmap string (list ListenerEntry)) (d : Dispatcher) :=
  {| listeners := m; sorted := sorted d;
     subscriberListeners := subscriberListeners d |}.

Definition set_sorted (s : gmap string bool) (d : Dispatcher) :=
  {| listeners := listeners d; sorted := s;
     subscriberListeners := subscriberListeners d |}.

(** [(a, b) => b.priority - a.priority] *)
Definition byPriority (a b : ListenerEntry) : Z := (priority b - priority a)%Z.

(** [addListener(eventName, listener, priority = 0)] *)
Definition addListener (eventName : string) (l : Listener) (p : Z)
    (d : Dispatcher) : Dispatcher :=
  let m :=
    match listeners d !! eventName with
    | None => <[eventName := []]> (listeners d)
    | Some _ => listeners d
    end in
  let m := alter (λ es, es ++ [Entry l p]) eventName m in
  set_sorted (<[eventName := false]> (sorted d)) (set_listeners m d).

(** The array after
    [index = findIndex(item => item.listener === listener)] and
    [if (index !== -1) splice(index, 1)]. *)
Definition without (l : Listener) (eventListeners : list ListenerEntry)
    : list ListenerEntry :=
  match findIndex (λ item, bool_decide (listener item = l)) eventListeners with
  | Some index => splice1 index eventListeners
  | None => eventListeners
  end.

(** [removeListener(eventName, listener)] *)
Definition removeListener (eventName : string) (l : Listener)
    (d : Dispatcher) : Dispatcher :=
  match listeners d !! eventName with
  | None => d
  | Some eventListeners =>
      let eventListeners := without l eventListeners in
      if length eventListeners =? 0 then
        set_sorted (delete eventName (sorted d))
          (set_listeners (delete eventName (listeners d)) d)
      else set_listeners (<[eventName := eventListeners]> (listeners d)) d
  end.

(** [sortListeners(eventName)] *)
Definition sortListeners (eventName : string) (d : Dispatcher) : Dispatcher :=
  set_sorted (<[eventName := true]> (sorted d))
    (set_listeners (alter (Array_sort byPriority) eventName (listeners d)) d).

(** The branch of [getListeners] taken for a truthy name. *)
Definition getListenersOf (name : string) (d : Dispatcher)
    : list Listener * Dispatcher :=
  match listeners d !! name with
  | None => ([], d)
  | Some _ =>
      let d :=
        match sorted d !! name with
        | Some true => d
        | _ => sortListeners name d
        end in
      (listener <$> default [] (listeners d !! name), d)
  end.

(** One round of the loop of the no-argument branch,
    [allListeners.set(name, this.getListeners(name))]; [self] is the
    nested call.  The keys come from a [Map], so they are distinct and
    [set] appends. *)
Definition collect
    (self : option string → Dispatcher → Completion Listing * Dispatcher)
    (acc : Completion (list (string * Listing)) * Dispatcher) (name : string)
    : Completion (list (string * Listing)) * Dispatcher :=
  match acc with
  | (Throw err, d) => (Throw err, d)
  | (Return allListeners, d) =>
      match self (Some name) d with
      | (Return r, d) => (Return (allListeners ++ [(name, r)]), d)
      | (Throw err, d) => (Throw err, d)
      end
  end.

(** A call for which the stack has no room left. *)
Definition stack_overflow (_ : option string) (d : Dispatcher)
    : Completion Listing * Dispatcher :=
  (Throw RangeError, d).

(** [getListeners(eventName?)].  The no-argument branch calls the method
    again for every key of the registry; [depth] is the number of nested
    calls the stack still has room for, and running out of it is the
    engine's [RangeError]. *)
Fixpoint getListeners (depth : nat) (eventName : option string)
    (d : Dispatcher) : Completion Listing * Dispatcher :=
  match truthy eventName with
  | Some name => let '(fs, d) := getListenersOf name d in (Return (Arr fs), d)
  | None =>
      let self :=
        match depth with
        | 0 => stack_overflow
        | S depth' => getListeners depth'
        end in
      match foldl (collect self) (Return [], d) (map_to_list (listeners d)).*1 with
      | (Return allListeners, d) => (Return (AllMap allListeners), d)
      | (Throw err, d) => (Throw err, d)
      end
  end.

(** [getListenerPriority(eventName, listener)] *)
Definition getListenerPriority (eventName : string) (l : Listener)
    (d : Dispatcher) : option Z :=
  match listeners d !! eventName with
  | None => None
  | Some es =>
      match find (λ item, bool_decide (listener item = l)) es with
      | Some found => Some (priority found)
      | None => None
      end
  end.

(** [hasListeners(eventName?)] *)
Definition hasListeners (eventName : option string) (d : Dispatcher) : bool :=
  match truthy eventName with
  | Some name =>
      match listeners d !! name with
      | Some es => 0 <? length es
      | None => false
      end
  | None => 0 <? size (listeners d)
  end.

(** ** The subscriber adapter of [AbstractEventDispatcher] *)

(** A value of the object [getSubscribedEvents] returns: a method name,
    or [{ listener, priority? }]. *)
Inductive Params :=
| MethodName (listenerName : string)
| Descriptor (listenerName : string) (priority : option Z).

(** A subscriber: its identity (the key of the [WeakMap]), the object
    [getSubscribedEvents()] returns, and the properties it has. *)
Record Subscriber := {
  identity : nat;
  getSubscribedEvents : gmap string Params;
  has_method : string → bool;
}.

(** The dispatcher together with the number of function objects created
    so far: [bind] returns a function no one has seen before. *)
Record Store := mkStore {
  dispatcher : Dispatcher;
  allocated : nat;
}.

Definition set_subscriberListeners (m : gmap nat (list (string * Listener)))
    (d : Dispatcher) : Dispatcher :=
  {| listeners := listeners d; sorted := sorted d; subscriberListeners := m |}.

(** The body of the [for] loop of [addSubscriber]. *)
Definition subscribe (s : Subscriber)
    (acc : Completion (list (string * Listener)) * Store)
    (entry : string * Params) : Completion (list (string * Listener)) * Store :=
  match acc with
  | (Throw err, st) => (Throw err, st)
  | (Return boundListeners, st) =>
      let '(eventName, params) := entry in
      let '(listenerName, priority) :=
        match params with
        | MethodName m => (m, 0%Z)
        | Descriptor m p => (m, default 0%Z p)
        end in
      if has_method s listenerName then
        let boundListener := allocated st in
        (Return (boundListeners ++ [(eventName, boundListener)]),
         {| dispatcher :=
              addListener eventName boundListener priority (dispatcher st);
            allocated := S (allocated st) |})
      else (Throw TypeError, st)
  end.

(** [addSubscriber(subscriber)] *)
Definition addSubscriber (s : Subscriber) (st : Store) : Completion () * Store :=
  match foldl (subscribe s) (Return [], st) (map_to_list (getSubscribedEvents s)) with
  | (Throw err, st) => (Throw err, st)
  | (Return boundListeners, st) =>
      (Return (),
       {| dispatcher :=
            set_subscriberListeners
              (<[identity s := boundListeners]>
                 (subscriberListeners (dispatcher st)))
              (dispatcher st);
          allocated := allocated st |})
  end.

(** [removeSubscriber(subscriber)] *)
Definition removeSubscriber (s : Subscriber) (d : Dispatcher) : Dispatcher :=
  match subscriberListeners d !! identity s with
  | None => d
  | Some boundListeners =>
      let d := foldl (λ d '(eventName, boundListener),
                        removeListener eventName boundListener d)
                 d boundListeners in
      set_subscriberListeners (delete (identity s) (subscriberListeners d)) d
  end.

(** ** Notions used in the statements *)

(** The array stored under a name ([[]] when the name is unknown). *)
Definition entries (name : string) (d : Dispatcher) : list ListenerEntry :=
  default [] (listeners d !! name).

(** Descending priorities. *)
Definition desc (es : list ListenerEntry) : Prop :=
  StronglySorted (λ a b, (priority b ≤ priority a)%Z) es.

(** The entries of priority [p], in the order of the array. *)
Definition tied (p : Z) (es : list ListenerEntry) : list ListenerEntry :=
  filter (λ x, priority x = p) es.

(** Two arrays that list the entries of every priority in the same order. *)
Definition same_ties (es es' : list ListenerEntry) : Prop :=
  ∀ p, tied p es = tied p es'.

(** The test [!this.sorted.get(eventName)] of [getListeners]. *)
Definition needs_resort (name : string) (d : Dispatcher) : Prop :=
  sorted d !! name ≠ Some true.

(** No name is kept with an empty array: [addListener] pushes right after
    creating one, [removeListener] deletes the name it empties. *)
Definition no_empty_array (d : Dispatcher) : Prop :=
  ∀ name es, listeners d !! name = Some es → es ≠ [].

(** Every registered listener is a function that already exists. *)
Definition listeners_below (n : nat) (d : Dispatcher) : Prop :=
  ∀ name es x, listeners d !! name = Some es → x ∈ es → listener x < n.

Definition well_formed (st : Store) : Prop :=
  no_empty_array (dispatcher st) ∧ listeners_below (allocated st) (dispatcher st).

(** Calls on the registry: registrations and lookups (the lookup is what
    [getListeners(name)] and [dispatch] do to the registry). *)
Inductive Op :=
| OpAdd (name : string) (l : Listener) (p : Z)
| OpLookup (name : string).

Definition apply_op (d : Dispatcher) (op : Op) : Dispatcher :=
  match op with
  | OpAdd name l p => addListener name l p d
  | OpLookup name => (getListenersOf name d).2
  end.

Definition run_ops (ops : list Op) (d : Dispatcher) : Dispatcher :=
  foldl apply_op d ops.


(** ** Events *)

(** [BaseEvent]: one private flag, read by [isPropagationStopped] and set
    by [stopPropagation]. *)
Module BaseEvent.
Record t := { propagationStopped : bool }.
Definition new : t := {| propagationStopped := false |}.
Definition isPropagationStopped (ev : t) : bool := propagationStopped ev.
Definition stopPropagation (ev : t) : t := {| propagationStopped := true |}.
End BaseEvent.

(** ** Dispatch *)

Inductive Impl := Simple | Node | Browser.

#[global] Instance Impl_eq_dec : EqDecision Impl.
Proof. solve_decision. Defined.

Inductive LogLine :=
| Log (text : string)
| LogError (eventName : string) (err : JsError).

(** Everything a listener body can reach: the objects of the program
    (among them the dispatched event), the dispatcher itself, and the
    console. *)
Record World (Heap : Type) := mkWorld {
  heap : Heap;
  disp : Dispatcher;
  console : list LogLine;
}.
Arguments mkWorld {Heap} _ _ _.
Arguments heap {Heap} _.
Arguments disp {Heap} _.
Arguments console {Heap} _.

Definition set_disp {Heap} (d : Dispatcher) (w : World Heap) : World Heap :=
  mkWorld (heap w) d (console w).

Definition console_log {Heap} (line : LogLine) (w : World Heap) : World Heap :=
  mkWorld (heap w) (disp w) (console w ++ [line]).

(** What a [for ... of] loop over the value of [getListeners] yields: the
    functions of an array, or the [[name, value]] pairs of a [Map], which
    are not callable. *)
Inductive Item :=
| Fn (f : Listener)
| Pair (name : string) (value : Listing).

Definition iterate (r : Listing) : list Item :=
  match r with
  | Arr fs => Fn <$> fs
  | AllMap m => (λ kv, Pair kv.1 kv.2) <$> m
  end.

(** The functions among the items of a loop. *)
Definition functions (items : list Item) : list Listener :=
  omap (λ it, match it with Fn f => Some f | Pair _ _ => None end) items.

Section Dispatch.
Context {Heap : Type}.
(** An event is a reference [Event] into the heap.  Its class fixes the
    constructor name and whether it has an [isPropagationStopped]
    method; the flag itself lives in the heap. *)
Context {Event : Type}.
Variable constructor_name : Event → string.
Variable isStoppableEvent : Event → bool.
Variable isPropagationStopped : Event → Heap → bool.
(** The body of every function object. *)
Variable call : Listener → Event → World Heap → Completion () * World Heap.

(** One record per listener invocation: the listener and the world it
    left behind. *)
Definition Trace : Type := list (Listener * World Heap).

(** [listener(event)].  A promise the listener returns settles after
    [dispatch] has returned; what the Node class does with it then is
    outside this model. *)
Definition invoke (it : Item) (e : Event) (w : World Heap)
    : Trace * Completion () * World Heap :=
  match it with
  | Fn f => let '(c, w') := call f e w in ([(f, w')], c, w')
  | Pair _ _ => ([], Throw TypeError, w)
  end.

(** The loop of the three [dispatch] methods.  [SimpleEventDispatcher]
    ([doDispatch]) calls the listener bare; the Node and browser classes
    wrap the call in [try]/[catch] and report to [console.error]. *)
Fixpoint doDispatch (impl : Impl) (items : list Item) (eventName : string)
    (e : Event) (w : World Heap) : Trace * Completion () * World Heap :=
  match items with
  | [] =>
      match impl with
      | Simple => ([], Return (), console_log (Log eventName) w)
      | _ => ([], Return (), w)
      end
  | it :: items' =>
      if isStoppableEvent e && isPropagationStopped e (heap w) then
        match impl with
        | Simple => ([], Return (), console_log (Log eventName) w)
        | _ => ([], Return (), w)
        end
      else
        let '(tr, c, w) := invoke it e w in
        match c, impl with
        | Throw err, Simple => (tr, Throw err, w)
        | Throw err, _ =>
            let '(tr', c', w') :=
              doDispatch impl items' eventName e
                (console_log (LogError eventName err) w) in
            (tr ++ tr', c', w')
        | Return _, _ =>
            let '(tr', c', w') := doDispatch impl items' eventName e w in
            (tr ++ tr', c', w')
        end
  end.

(** Ghost notions used to state what a trace shows.  [checked e w tr]:
    every invocation recorded in [tr], run from world [w], was preceded
    by a test that found [e] not stopped. *)
Fixpoint checked (e : Event) (w : World Heap) (tr : Trace) : Prop :=
  match tr with
  | [] => True
  | (_, w') :: tr' =>
      isStoppableEvent e && isPropagationStopped e (heap w) = false
      ∧ checked e w' tr'
  end.

(** The world in which the [k]-th recorded invocation started. *)
Fixpoint world_before (w : World Heap) (tr : Trace) (k : nat) : World Heap :=
  match k, tr with
  | S j, (_, w') :: tr' => world_before w' tr' j
  | _, _ => w
  end.

(** The world the last recorded invocation left. *)
Fixpoint last_world (w : World Heap) (tr : Trace) : World Heap :=
  match tr with
  | [] => w
  | (_, w') :: tr' => last_world w' tr'
  end.

(** The mirror on the platform bus, the first statement of [dispatch]
    after the name is resolved and outside its [try]:
    [this.emitter.emit(name, event)] in the Node class,
    [this.eventTarget.dispatchEvent(customEvent)] in the browser class,
    nothing in [SimpleEventDispatcher].  No handler is attached to the
    bus, so the call runs none; a Node [EventEmitter] that is asked to
    emit ["error"] without a handler for it throws ([UnhandledError]:
    the event itself when it is an [Error], [ERR_UNHANDLED_ERROR]
    otherwise). *)
Definition emit (impl : Impl) (name : string) : Completion () :=
  match impl with
  | Node => if decide (name = "error") then Throw UnhandledError else Return ()
  | Simple | Browser => Return ()
  end.

(** [dispatch(event, eventName?)] *)
Definition dispatch (impl : Impl) (depth : nat) (e : Event)
    (eventName : option string) (w : World Heap)
    : Trace * Completion Event * World Heap :=
  let name := default (constructor_name e) eventName in
  match emit impl name with
  | Throw err => ([], Throw err, w)
  | Return _ =>
      if negb (hasListeners (Some name) (disp w)) then ([], Return e, w)
      else
        match getListeners depth (Some name) (disp w) with
        | (Throw err, d) => ([], Throw err, set_disp d w)
        | (Return r, d) =>
            match doDispatch impl (iterate r) name e (set_disp d w) with
            | (tr, Return _, w) => (tr, Return e, w)
            | (tr, Throw err, w) => (tr, Throw err, w)
            end
        end
  end.

End Dispatch.


(** The bound listeners [new] of a subscriber are pending on top of [d]:
    the registry [dmid] is [d] with, for every pair of [new], one entry
    for the bound listener pushed at the end of the array of its name. *)
Definition pending (new : list (string * Listener)) (d dmid : Dispatcher) : Prop :=
  NoDup new.*1 ∧
  (∀ name, name ∉ new.*1 → listeners dmid !! name = listeners d !! name) ∧
  (∀ name b, (name, b) ∈ new →
     (∀ x, x ∈ entries name d → listener x ≠ b) ∧
     ∃ p, listeners dmid !! name = Some (entries name d ++ [Entry b p])).

(** With the empty name among the keys the nested call for it takes
    the no-argument branch again, whatever room the stack has. *)
Definition keeps_overflowing
    (self : option string → Dispatcher → Completion Listing * Dispatcher) : Prop :=
  ∀ n d, is_Some (listeners d !! "") →
    is_Some (listeners (self (Some n) d).2 !! "") ∧
    (n = "" → (self (Some n) d).1 = Throw RangeError) ∧
    (∀ err, (self (Some n) d).1 = Throw err → err = RangeError).

(** An emptied name, as the specification describes it. *)
Definition forgotten (name : string) (d : Dispatcher) : Prop :=
  hasListeners (Some name) d = false ∧
  ∀ depth m d', getListeners depth None d = (Return (AllMap m), d') →
    name ∉ m.*1.

(** ** A concrete program

    One [BaseEvent] is the whole heap.  Listener [B] calls
    [event.stopPropagation()], listener [failing] throws, every other
    function returns at once. *)
Module Scenario.
Definition Heap : Type := BaseEvent.t.
Definition Event : Type := ().

Definition constructor_name (_ : Event) : string := "BaseEvent".
Definition isStoppableEvent (_ : Event) : bool := true.
Definition isPropagationStopped (_ : Event) (h : Heap) : bool :=
  BaseEvent.isPropagationStopped h.

Definition A : Listener := 0.
Definition B : Listener := 1.
Definition C : Listener := 2.
Definition failing : Listener := 3.

Definition call (f : Listener) (_ : Event) (w : World Heap)
    : Completion () * World Heap :=
  if f =? B then
    (Return (), mkWorld (BaseEvent.stopPropagation (heap w)) (disp w) (console w))
  else if f =? failing then (Throw (UserError 0), w)
  else (Return (), w).

Definition run : Impl → nat → Event → option string → World Heap →
    Trace * Completion Event * World Heap :=
  dispatch constructor_name isStoppableEvent isPropagationStopped call.

(** A world with a fresh event and an empty console. *)
Definition world (d : Dispatcher) : World Heap := mkWorld BaseEvent.new d [].

(** [C] (priority 0), [A] (10) and [B] (5) on ["x"]. *)
Definition abc_ops : list Op := [OpAdd "x" C 0; OpAdd "x" A 10; OpAdd "x" B 5].
Definition abc : Dispatcher := run_ops abc_ops new_Dispatcher.

(** A failing listener ahead of [A] on ["x"]. *)
Definition failing_first : Dispatcher :=
  run_ops [OpAdd "x" failing 10; OpAdd "x" A 0] new_Dispatcher.

(** One listener under the empty name. *)
Definition unnamed_ops : list Op := [OpAdd "" A 0].
Definition unnamed : Dispatcher := run_ops unnamed_ops new_Dispatcher.


(** One listener under the empty name, one under ["x"]. *)
Definition unnamed_and_x : Dispatcher :=
  run_ops [OpAdd "" A 0; OpAdd "x" B 0] new_Dispatcher.

(** Two listeners on ["x"], looked up once. *)
Definition looked_up : Dispatcher :=
  run_ops [OpAdd "x" A 0; OpAdd "x" B 5; OpLookup "x"] new_Dispatcher.

(** A subscriber for ["e1"] and ["e2"], and a store in which a listener
    is already registered on ["e1"]. *)
Definition subscriber : Subscriber :=
  {| identity := 0;
     getSubscribedEvents :=
       {[ "e1" := MethodName "m1"; "e2" := Descriptor "m2" (Some 10%Z) ]};
     has_method := λ _, true |}.
Definition store : Store :=
  {| dispatcher := addListener "e1" A 3 new_Dispatcher; allocated := 4 |}.
End Scenario.

(** ** Notions for the properties beyond the specification *)

(** The cache of sorted arrays is sound: a clean flag stands on an array
    in descending order. *)
Definition sorted_sound (d : Dispatcher) : Prop :=
  ∀ name, sorted d !! name = Some true → desc (entries name d).

(** The listeners of an array other than [l], in the order of the array. *)
Definition others (l : Listener) (es : list ListenerEntry) : list ListenerEntry :=
  filter (λ x, listener x ≠ l) es.

(** The method name and the priority a [getSubscribedEvents] value
    stands for ([typeof params === 'string'], [params.priority ?? 0]). *)
Definition method_of (params : Params) : string :=
  match params with
  | MethodName m => m
  | Descriptor m _ => m
  end.

Definition priority_of (params : Params) : Z :=
  match params with
  | MethodName _ => 0%Z
  | Descriptor _ p => default 0%Z p
  end.

(** The stores a program can build: it creates functions, registers and
    removes the ones it has, looks listeners up (as [getListeners] and
    [dispatch] do) and adds and removes subscribers. *)
Inductive reachable : Store → Prop :=
| reachable_new :
    reachable {| dispatcher := new_Dispatcher; allocated := 0 |}
| reachable_function st :
    reachable st →
    reachable {| dispatcher := dispatcher st; allocated := S (allocated st) |}
| reachable_addListener st name l p :
    reachable st → l < allocated st →
    reachable {| dispatcher := addListener name l p (dispatcher st);
                 allocated := allocated st |}
| reachable_removeListener st name l :
    reachable st →
    reachable {| dispatcher := removeListener name l (dispatcher st);
                 allocated := allocated st |}
| reachable_getListeners st depth eventName :
    reachable st →
    reachable {| dispatcher := (getListeners depth eventName (dispatcher st)).2;
                 allocated := allocated st |}
| reachable_addSubscriber st s :
    reachable st → reachable (addSubscriber s st).2
| reachable_removeSubscriber st s :
    reachable st →
    reachable {| dispatcher := removeSubscriber s (dispatcher st);
                 allocated := allocated st |}.

(** Sequences of method calls on a [BaseEvent]. *)
Inductive BaseEventMethod :=
| CallIsPropagationStopped
| CallStopPropagation.

#[global] Instance BaseEventMethod_eq_dec : EqDecision BaseEventMethod.
Proof. solve_decision. Defined.

Definition call_method (ev : BaseEvent.t) (m : BaseEventMethod) : BaseEvent.t :=
  match m with
  | CallIsPropagationStopped => ev
  | CallStopPropagation => BaseEvent.stopPropagation ev
  end.

Section Reports.
Context {Heap Event : Type}.
Variable call : Listener → Event → World Heap → Completion () * World Heap.

(** The lines the [catch] blocks of a dispatch write for the invocations
    of a trace that started in world [w]: one [console.error] for every
    invocation that threw, in the order of the invocations. *)
Fixpoint reported (eventName : string) (e : Event) (w : World Heap)
    (tr : list (Listener * World Heap)) : list LogLine :=
  match tr with
  | [] => []
  | (f, w') :: tr' =>
      match (call f e w).1 with
      | Throw err =>
          LogError eventName err
          :: reported eventName e (console_log (LogError eventName err) w') tr'
      | Return _ => reported eventName e w' tr'
      end
  end.
End Reports.

(** ** A second concrete program *)
Module Session.
(** Two functions are created and registered on ["x"]; the name is
    looked up; the second function is removed. *)
Definition st0 : Store := {| dispatcher := new_Dispatcher; allocated := 0 |}.
Definition st1 : Store :=
  {| dispatcher := dispatcher st0; allocated := S (allocated st0) |}.
Definition st2 : Store :=
  {| dispatcher := dispatcher st1; allocated := S (allocated st1) |}.
Definition st3 : Store :=
  {| dispatcher := addListener "x" 0 5 (dispatcher st2);
     allocated := allocated st2 |}.
Definition st4 : Store :=
  {| dispatcher := addListener "x" 1 7 (dispatcher st3);
     allocated := allocated st3 |}.
Definition st5 : Store :=
  {| dispatcher := (getListeners 0 (Some "x") (dispatcher st4)).2;
     allocated := allocated st4 |}.
Definition st6 : Store :=
  {| dispatcher := removeListener "x" 1 (dispatcher st5);
     allocated := allocated st5 |}.

(** The function [0] registered twice on ["x"], with priorities 5 and 9. *)
Definition twice : Dispatcher :=
  addListener "x" 0 9 (addListener "x" 0 5 new_Dispatcher).

(** Three functions registered on ["x"] with priorities 5, 9 and 7; the
    name is looked up; the function of priority 7 is removed, which
    leaves two entries under a clean flag. *)
Definition three : Store :=
  {| dispatcher :=
       addListener "x" 2 7
         (addListener "x" 1 9 (addListener "x" 0 5 new_Dispatcher));
     allocated := 3 |}.
Definition three_looked_up : Store :=
  {| dispatcher := (getListeners 0 (Some "x") (dispatcher three)).2;
     allocated := allocated three |}.
Definition two_left : Store :=
  {| dispatcher := removeListener "x" 2 (dispatcher three_looked_up);
     allocated := allocated three_looked_up |}.

(** The function [0] registered on ["x"] with priorities 5 and 1, around
    the function [1]. *)
Definition around : Dispatcher :=
  addListener "x" 0 1 (addListener "x" 1 3 (addListener "x" 0 5 new_Dispatcher)).

(** A subscriber that declares a method it does not have. *)
Definition faulty : Subscriber :=
  {| identity := 1;
     getSubscribedEvents :=
       {[ "e1" := MethodName "m1"; "e2" := MethodName "missing" ]};
     has_method := λ m, String.eqb m "m1" |}.
End Session.

(** * Proofs *)

Section SortFacts.
Implicit Types (x y : ListenerEntry) (es : list ListenerEntry).

Lemma tied_cons p x es :
  tied p (x :: es) = if decide (priority x = p) then x :: tied p es else tied p es.
Proof. unfold tied. rewrite filter_cons. by case_decide. Qed.


Lemma elem_of_tied p x es : x ∈ tied p es ↔ priority x = p ∧ x ∈ es.
Proof. unfold tied. by rewrite list_elem_of_filter. Qed.

Lemma sort_insert_perm x es : sort_insert byPriority x es ≡ₚ x :: es.
Proof.
  induction es as [|y es IH]; simpl; [done|].
  case_match; [|done]. by rewrite IH, Permutation_swap.
Qed.

Lemma sort_insert_tied p x es :
  tied p (sort_insert byPriority x es) = tied p (x :: es).
Proof.
  induction es as [|y es IH]; simpl; [done|].
  destruct (0 <? byPriority x y)%Z eqn:Hcmp; [|done].
  apply Z.ltb_lt in Hcmp. unfold byPriority in Hcmp.
  rewrite (tied_cons p y), IH, !tied_cons.
  repeat case_decide; (done || lia).
Qed.

Lemma sort_insert_desc x es : desc es → desc (sort_insert byPriority x es).
Proof.
  unfold desc. induction es as [|y es IH]; simpl; intros Hs.
  - repeat constructor.
  - apply StronglySorted_inv in Hs as [Hs Hy].
    destruct (0 <? byPriority x y)%Z eqn:Hcmp; unfold byPriority in Hcmp.
    + apply Z.ltb_lt in Hcmp. constructor; [by apply IH|].
      rewrite sort_insert_perm. constructor; [lia|done].
    + apply Z.ltb_ge in Hcmp. constructor; [by constructor|].
      constructor; [lia|]. eapply Forall_impl; [done|]. simpl. lia.
Qed.

Lemma Array_sort_perm es : Array_sort byPriority es ≡ₚ es.
Proof.
  induction es as [|x es IH]; simpl; [done|].
  fold (Array_sort byPriority es). by rewrite sort_insert_perm, IH.
Qed.

Lemma Array_sort_desc es : desc (Array_sort byPriority es).
Proof.
  induction es as [|x es IH]; simpl; [constructor|].
  by apply sort_insert_desc.
Qed.

Lemma Array_sort_ties es : same_ties (Array_sort byPriority es) es.
Proof.
  intros p. induction es as [|x es IH]; simpl; [done|].
  fold (Array_sort byPriority es).
  by rewrite sort_insert_tied, !tied_cons, IH.
Qed.

Lemma same_ties_nil es : same_ties [] es → es = [].
Proof.
  destruct es as [|y es]; [done|]. intros H.
  specialize (H (priority y)). rewrite tied_cons in H.
  by rewrite decide_True in H.
Qed.

(** An array is determined by the order inside every priority class and
    by being in descending order: whatever stable algorithm the engine
    runs, [sort] returns the array [Array_sort] computes. *)
Lemma desc_same_ties_eq es1 es2 :
  desc es1 → desc es2 → same_ties es1 es2 → es1 = es2.
Proof.
  revert es2. induction es1 as [|x es1 IH]; intros es2 H1 H2 Ht.
  - symmetry. by apply same_ties_nil.
  - destruct es2 as [|y es2].
    { assert (x :: es1 = []); [|done].
      apply same_ties_nil. intros p. by rewrite Ht. }
    apply StronglySorted_inv in H1 as [H1 Hx].
    apply StronglySorted_inv in H2 as [H2 Hy].
    assert (priority x ≤ priority y)%Z as Hxy.
    { assert (x ∈ tied (priority x) (y :: es2)) as Hin.
      { rewrite <- Ht. apply elem_of_tied. split; [done|]. left. }
      apply elem_of_tied in Hin as [_ Hin].
      apply elem_of_cons in Hin as [->|Hin]; [lia|].
      rewrite Forall_forall in Hy. by apply Hy. }
    assert (priority y ≤ priority x)%Z as Hyx.
    { assert (y ∈ tied (priority y) (x :: es1)) as Hin.
      { rewrite Ht. apply elem_of_tied. split; [done|]. left. }
      apply elem_of_tied in Hin as [_ Hin].
      apply elem_of_cons in Hin as [->|Hin]; [lia|].
      rewrite Forall_forall in Hx. by apply Hx. }
    assert (priority x = priority y) as Hp by lia.
    pose proof (Ht (priority x)) as Hhd.
    rewrite !tied_cons, decide_True, decide_True in Hhd by done.
    injection Hhd as <- Hhd. f_equal. apply IH; [done..|].
    intros p. specialize (Ht p). rewrite !tied_cons in Ht.
    case_decide; [|done]. by injection Ht.
Qed.


Lemma desc_sort es es' : desc es → same_ties es es' → es = Array_sort byPriority es'.
Proof.
  intros Hd Ht. apply desc_same_ties_eq; [done|apply Array_sort_desc|].
  intros p. by rewrite Array_sort_ties.
Qed.
End SortFacts.

Section ArrayFacts.
Context {A : Type}.
Implicit Types (p : A → bool) (l : list A).

Lemma findIndex_None p l : findIndex p l = None ↔ ∀ x, x ∈ l → p x = false.
Proof.
  induction l as [|y l IH]; simpl.
  - split; [|done]. intros _ x Hx. by apply elem_of_nil in Hx.
  - destruct (p y) eqn:Hy.
    + split; [done|]. intros H. specialize (H y (list_elem_of_here _ _)). congruence.
    + rewrite fmap_None, IH. split.
      * intros H x [->|Hx]%elem_of_cons; auto.
      * intros H x Hx. apply H. by right.
Qed.

Lemma findIndex_Some p l i :
  findIndex p l = Some i ↔
  ∃ x, l !! i = Some x ∧ p x = true ∧ ∀ j y, j < i → l !! j = Some y → p y = false.
Proof.
  revert i. induction l as [|z l IH]; intros i; simpl.
  - split; [done|]. by intros (x & ? & _).
  - destruct (p z) eqn:Hz.
    + split.
      * intros [= <-]. exists z. repeat split; [done|]. intros j y Hj. lia.
      * intros (x & Hx & Hpx & Hmin). destruct i as [|i]; [done|].
        specialize (Hmin 0 z ltac:(lia) eq_refl). congruence.
    + rewrite fmap_Some. split.
      * intros (i' & Hi' & ->). apply IH in Hi' as (x & Hx & Hpx & Hmin).
        exists x. repeat split; [done..|]. intros [|j] y Hj; simpl.
        -- by intros [= <-].
        -- apply Hmin. lia.
      * intros (x & Hx & Hpx & Hmin). destruct i as [|i].
        { simpl in Hx. injection Hx as ->. congruence. }
        exists i. split; [|done]. apply IH. exists x. repeat split; [done..|].
        intros j y Hj Hy. apply (Hmin (S j) y); [lia|done].
Qed.

Lemma find_findIndex p l :
  find p l = (findIndex p l ≫= λ i, l !! i).
Proof.
  induction l as [|z l IH]; simpl; [done|].
  destruct (p z); [done|]. rewrite IH. by destruct (findIndex p l).
Qed.

Lemma findIndex_snoc p l x :
  (∀ y, y ∈ l → p y = false) → p x = true →
  findIndex p (l ++ [x]) = Some (length l).
Proof.
  intros Hl Hx. induction l as [|z l IH]; simpl.
  - by rewrite Hx.
  - rewrite (Hl z) by left. rewrite IH; [done|]. intros y Hy. apply Hl. by right.
Qed.

Lemma splice1_snoc l x : splice1 (length l) (l ++ [x]) = l.
Proof.
  unfold splice1. induction l as [|z l IH]; simpl; [done|]. by f_equal.
Qed.
End ArrayFacts.

Section RegistryFacts.
Implicit Types (d : Dispatcher) (es : list ListenerEntry) (l : Listener).

Lemma Dispatcher_eq d d' :
  listeners d = listeners d' → sorted d = sorted d' →
  subscriberListeners d = subscriberListeners d' → d = d'.
Proof. destruct d, d'; simpl. by intros -> -> ->. Qed.

Lemma without_absent l es : (∀ x, x ∈ es → listener x ≠ l) → without l es = es.
Proof.
  intros H. unfold without.
  destruct (findIndex _ es) as [i|] eqn:Hi; [|done].
  apply findIndex_Some in Hi as (x & Hx & Hp & _).
  apply bool_decide_eq_true in Hp. apply list_elem_of_lookup_2 in Hx.
  by apply H in Hx.
Qed.

Lemma without_snoc l p es :
  (∀ x, x ∈ es → listener x ≠ l) → without l (es ++ [Entry l p]) = es.
Proof.
  intros H. unfold without. rewrite findIndex_snoc.
  - apply splice1_snoc.
  - intros y Hy. apply bool_decide_eq_false. by apply H.
  - by apply bool_decide_eq_true.
Qed.

Lemma without_sublist l es : without l es `sublist_of` es.
Proof. unfold without. case_match; [apply sublist_delete|done]. Qed.

Lemma without_cons l x es :
  without l (x :: es) = if decide (listener x = l) then es else x :: without l es.
Proof.
  unfold without. simpl. case_decide as Hx.
  - by rewrite bool_decide_eq_true_2.
  - rewrite bool_decide_eq_false_2 by done.
    by destruct (findIndex _ es).
Qed.

Lemma desc_sublist es es' : es `sublist_of` es' → desc es' → desc es.
Proof.
  unfold desc. induction 1 as [|x es es' Hsub IH|x es es' Hsub IH]; intros Hs.
  - constructor.
  - apply StronglySorted_inv in Hs as [Hs Hx]. constructor; [auto|].
    eapply Forall_forall. intros y Hy. rewrite Forall_forall in Hx.
    apply Hx. by eapply elem_of_sublist.
  - apply StronglySorted_inv in Hs as [Hs _]. auto.
Qed.

(** *** [addListener] *)

Lemma listeners_addListener n l p d :
  listeners (addListener n l p d)
  = <[n := entries n d ++ [Entry l p]]> (listeners d).
Proof.
  unfold addListener, entries. simpl. apply map_eq. intros k.
  destruct (listeners d !! n) as [es|] eqn:Hn; simpl.
  - destruct (decide (n = k)) as [->|Hk].
    + by rewrite lookup_alter_eq, lookup_insert_eq, Hn.
    + by rewrite lookup_alter_ne, lookup_insert_ne.
  - destruct (decide (n = k)) as [->|Hk].
    + by rewrite lookup_alter_eq, !lookup_insert_eq.
    + by rewrite lookup_alter_ne, !lookup_insert_ne.
Qed.

Lemma sorted_addListener n l p d :
  sorted (addListener n l p d) = <[n := false]> (sorted d).
Proof. done. Qed.

Lemma entries_addListener n l p d name :
  entries name (addListener n l p d)
  = if decide (n = name) then entries name d ++ [Entry l p] else entries name d.
Proof.
  unfold entries at 1. rewrite listeners_addListener.
  case_decide as Hn; [subst; by rewrite lookup_insert_eq|].
  by rewrite lookup_insert_ne.
Qed.

(** *** [removeListener] *)

Lemma listeners_removeListener n l d :
  listeners (removeListener n l d)
  = match listeners d !! n with
    | None => listeners d
    | Some es =>
        if decide (without l es = []) then delete n (listeners d)
        else <[n := without l es]> (listeners d)
    end.
Proof.
  unfold removeListener. destruct (listeners d !! n) as [es|]; [|done].
  destruct (without l es) as [|x es']; simpl; done.
Qed.

Lemma sorted_removeListener n l d :
  sorted (removeListener n l d)
  = match listeners d !! n with
    | None => sorted d
    | Some es =>
        if decide (without l es = []) then delete n (sorted d) else sorted d
    end.
Proof.
  unfold removeListener. destruct (listeners d !! n) as [es|]; [|done].
  destruct (without l es) as [|x es']; simpl; done.
Qed.

Lemma subscriberListeners_removeListener n l d :
  subscriberListeners (removeListener n l d) = subscriberListeners d.
Proof.
  unfold removeListener. destruct (listeners d !! n) as [es|]; [|done].
  by destruct (length _ =? 0).
Qed.

Lemma lookup_removeListener_ne n l d name :
  n ≠ name → listeners (removeListener n l d) !! name = listeners d !! name.
Proof.
  intros Hne. rewrite listeners_removeListener.
  destruct (listeners d !! n) as [es|]; [|done].
  case_decide; by rewrite ?lookup_delete_ne, ?lookup_insert_ne.
Qed.

Lemma lookup_removeListener_eq n l d :
  listeners (removeListener n l d) !! n
  = match listeners d !! n with
    | None => None
    | Some es => if decide (without l es = []) then None else Some (without l es)
    end.
Proof.
  rewrite listeners_removeListener.
  destruct (listeners d !! n) as [es|] eqn:Hn; [|done].
  case_decide; by rewrite ?lookup_delete_eq, ?lookup_insert_eq.
Qed.

(** *** The named lookup *)

Lemma listeners_sortListeners n d :
  listeners (sortListeners n d) = alter (Array_sort byPriority) n (listeners d).
Proof. done. Qed.

Lemma getListenersOf_state n d :
  (getListenersOf n d).2
  = match listeners d !! n, sorted d !! n with
    | None, _ | Some _, Some true => d
    | Some _, _ => sortListeners n d
    end.
Proof.
  unfold getListenersOf. destruct (listeners d !! n); [|done].
  by destruct (sorted d !! n) as [[]|].
Qed.

Lemma getListenersOf_result n d :
  (getListenersOf n d).1 = listener <$> entries n (getListenersOf n d).2.
Proof.
  unfold getListenersOf, entries. destruct (listeners d !! n) eqn:Hn; simpl; [done|].
  by rewrite Hn.
Qed.

Lemma entries_getListenersOf n d name :
  entries name (getListenersOf n d).2
  = if decide (n = name ∧ needs_resort n d)
    then Array_sort byPriority (entries name d) else entries name d.
Proof.
  rewrite getListenersOf_state. unfold entries, needs_resort.
  destruct (listeners d !! n) as [es|] eqn:Hn.
  - destruct (sorted d !! n) as [[]|] eqn:Hs.
    + rewrite decide_False; [done|]. by intros [_ ?].
    + rewrite listeners_sortListeners. case_decide as Hc.
      * destruct Hc as [<- _]. by rewrite lookup_alter_eq, Hn.
      * rewrite lookup_alter_ne; [done|]. intros ->. by apply Hc.
    + rewrite listeners_sortListeners. case_decide as Hc.
      * destruct Hc as [<- _]. by rewrite lookup_alter_eq, Hn.
      * rewrite lookup_alter_ne; [done|]. intros ->. by apply Hc.
  - case_decide as Hc; [|done]. destruct Hc as [<- _]. by rewrite Hn.
Qed.

Lemma dom_getListenersOf n d name :
  listeners (getListenersOf n d).2 !! name = None ↔ listeners d !! name = None.
Proof.
  rewrite getListenersOf_state.
  destruct (listeners d !! n) as [es|]; [|done].
  destruct (sorted d !! n) as [[]|]; [done|..];
    rewrite listeners_sortListeners;
    (destruct (decide (n = name)) as [->|Hne];
      [rewrite lookup_alter_eq, fmap_None|rewrite lookup_alter_ne by done]); done.
Qed.
End RegistryFacts.

Lemma truthy_Some name : name ≠ "" → truthy (Some name) = Some name.
Proof. intros Hne. unfold truthy. by case_decide. Qed.

Lemma truthy_None eventName :
  truthy eventName = None ↔ eventName = None ∨ eventName = Some "".
Proof.
  unfold truthy. destruct eventName as [s|]; [|by split; auto].
  case_decide as Hs; [subst; by split; auto|].
  split; [done|]. intros [|[=]]; done.
Qed.

(** For a non-empty name [getListeners] is its named branch. *)
Lemma getListeners_truthy depth name d :
  name ≠ "" →
  getListeners depth (Some name) d
  = (Return (Arr (getListenersOf name d).1), (getListenersOf name d).2).
Proof.
  intros Hne. destruct depth; cbn [getListeners]; rewrite truthy_Some by done;
    by destruct (getListenersOf name d).
Qed.

(** For a falsy argument it never returns an array. *)
Lemma getListeners_falsy depth eventName d :
  truthy eventName = None →
  ∃ d', (∃ err, getListeners depth eventName d = (Throw err, d')) ∨
        ∃ m, getListeners depth eventName d = (Return (AllMap m), d').
Proof.
  intros Hf. destruct depth; cbn [getListeners]; rewrite Hf;
    match goal with |- context [foldl ?f ?a ?l] =>
      destruct (foldl f a l) as [[m|err] d'] end; eauto.
Qed.

Section DispatchFacts.
Context {Heap Event : Type}.
Variable constructor_name : Event → string.
Variable isStoppableEvent : Event → bool.
Variable isPropagationStopped : Event → Heap → bool.
Variable call : Listener → Event → World Heap → Completion () * World Heap.

Abbreviation loop := (doDispatch isStoppableEvent isPropagationStopped call).
Abbreviation run := (dispatch constructor_name isStoppableEvent isPropagationStopped call).
Abbreviation stopped e w := (isStoppableEvent e && isPropagationStopped e (heap w)).

Abbreviation checked := (checked isStoppableEvent isPropagationStopped).

Lemma last_world_app (w : World Heap) tr tr' :
  last_world w (tr ++ tr') = last_world (last_world w tr) tr'.
Proof. revert w. induction tr as [|[f w1] tr IH]; intros w; simpl; auto. Qed.

Lemma checked_app e (w : World Heap) tr tr' :
  checked e w tr → checked e (last_world w tr) tr' → checked e w (tr ++ tr').
Proof.
  revert w. induction tr as [|[f w1] tr IH]; intros w; simpl; [done|].
  intros [Hw Htr] Htr'. split; [done|]. by apply IH.
Qed.

Lemma checked_heap e (w1 w2 : World Heap) tr :
  heap w1 = heap w2 → checked e w1 tr → checked e w2 tr.
Proof. destruct tr as [|[f w] tr]; simpl; [done|]. by intros ->. Qed.

Lemma invoke_spec it e w tr c w' :
  invoke call it e w = (tr, c, w') →
  (tr = [] ∧ w' = w ∧ c = Throw TypeError ∧ ∃ n v, it = Pair n v) ∨
  (∃ f, it = Fn f ∧ call f e w = (c, w') ∧ tr = [(f, w')]).
Proof.
  destruct it as [f|n v]; simpl.
  - destruct (call f e w) as [c0 w0] eqn:Hc. intros [= <- <- <-]. right. eauto.
  - intros [= <- <- <-]. left. eauto 10.
Qed.

Lemma doDispatch_checked impl items name e w tr c w' :
  loop impl items name e w = (tr, c, w') →
  checked e w tr ∧ heap w' = heap (last_world w tr).
Proof.
  revert w tr c w'. induction items as [|it items IH]; intros w tr c w'; simpl.
  - destruct impl; intros [= <- <- <-]; done.
  - destruct (stopped e w) eqn:Hs.
    { destruct impl; intros [= <- <- <-]; done. }
    destruct (invoke call it e w) as [[tr1 c1] w1] eqn:Hinv.
    apply invoke_spec in Hinv.
    assert (Hpre : checked e w tr1 ∧ heap w1 = heap (last_world w tr1)).
    { destruct Hinv as [(-> & -> & _)|(f & _ & _ & ->)]; simpl; done. }
    assert (Hstep : ∀ w2 tr2 c2 w2',
      heap w2 = heap w1 → loop impl items name e w2 = (tr2, c2, w2') →
      checked e w2 tr2 ∧ heap w2' = heap (last_world w2 tr2) → 
      checked e w (tr1 ++ tr2) ∧ heap w2' = heap (last_world w (tr1 ++ tr2))).
    { intros w2 tr2 c2 w2' Hh _ [Hc Hl]. destruct Hpre as [Hc1 Hl1]. split.
      - apply checked_app; [done|].
        apply (checked_heap e w2); [|done]. by rewrite Hh, Hl1.
      - rewrite last_world_app, Hl.
        destruct tr2 as [|[g wg] tr2]; simpl; [|done]. by rewrite Hh, Hl1. }
    destruct c1 as [[]|err].
    + destruct (loop impl items name e w1) as [[tr2 c2] w2'] eqn:Hl.
      intros Heq. 
      assert (tr = tr1 ++ tr2 ∧ c = c2 ∧ w' = w2') as (-> & -> & ->)
        by (destruct impl; by inversion Heq).
      eapply Hstep; eauto.
    + destruct impl.
      * intros [= <- <- <-]. done.
      * destruct (loop Node items name e _) as [[tr2 c2] w2'] eqn:Hl.
        intros [= <- <- <-]. eapply Hstep; [|done|]; eauto.
      * destruct (loop Browser items name e _) as [[tr2 c2] w2'] eqn:Hl.
        intros [= <- <- <-]. eapply Hstep; [|done|]; eauto.
Qed.

Lemma checked_lookup e (w : World Heap) tr k f wk :
  checked e w tr → tr !! k = Some (f, wk) →
  stopped e (world_before w tr k) = false.
Proof.
  revert w k. induction tr as [|[g w1] tr IH]; intros w k; [done|].
  simpl. intros [Hw Htr]. destruct k as [|j]; simpl; [done|]. by apply IH.
Qed.

Lemma world_before_S (w : World Heap) tr k f wk :
  tr !! k = Some (f, wk) → world_before w tr (S k) = wk.
Proof.
  revert w k. induction tr as [|[g w1] tr IH]; intros w k; [done|].
  destruct k as [|j]; simpl.
  - intros [= -> ->]. by destruct tr as [|[??]?].
  - intros Hj. by apply (IH w1) in Hj.
Qed.

Lemma last_world_lookup (w : World Heap) tr k f wk :
  tr !! k = Some (f, wk) → length tr = S k → last_world w tr = wk.
Proof.
  revert w k. induction tr as [|[g w1] tr IH]; intros w k; [done|].
  destruct k as [|j]; simpl.
  - intros [= -> ->] Hlen. by destruct tr.
  - intros Hj Hlen. apply (IH w1 j); [done|lia].
Qed.

Lemma functions_fmap_Fn fs : functions (Fn <$> fs) = fs.
Proof. unfold functions. induction fs as [|f fs IH]; simpl; [done|]. by f_equal. Qed.

Lemma functions_iterate_AllMap m : functions (iterate (AllMap m)) = [].
Proof. unfold functions. simpl. induction m as [|[n v] m IH]; simpl; auto. Qed.

(** The invocations follow the items in order; the loop leaves items
    unvisited only on a stopped event or, without [try]/[catch], on an
    exception. *)
Local Arguments functions : simpl never.

Lemma doDispatch_prefix impl items name e w tr c w' :
  loop impl items name e w = (tr, c, w') →
  ∃ rest, functions items = tr.*1 ++ rest ∧
    (rest ≠ [] → stopped e w' = true ∨ (impl = Simple ∧ ∃ err, c = Throw err)).
Proof.
  revert w tr c w'. induction items as [|it items IH]; intros w tr c w'; simpl.
  - destruct impl; intros [= <- <- <-]; by exists [].
  - destruct (stopped e w) eqn:Hs.
    { destruct impl; intros [= <- <- <-]; eexists; (split; [done|]); by left. }
    destruct (invoke call it e w) as [[tr1 c1] w1] eqn:Hinv.
    assert (Hfn : functions (it :: items) = tr1.*1 ++ functions items).
    { apply invoke_spec in Hinv.
      destruct Hinv as [(-> & _ & _ & n & v & ->)|(f & -> & _ & ->)]; done. }
    rewrite Hfn.
    assert (Hstep : ∀ w2 tr2 c2 w2',
      loop impl items name e w2 = (tr2, c2, w2') →
      ∃ rest, tr1.*1 ++ functions items = (tr1 ++ tr2).*1 ++ rest ∧
        (rest ≠ [] → stopped e w2' = true ∨ (impl = Simple ∧ ∃ err, c2 = Throw err))).
    { intros w2 tr2 c2 w2' Hl. destruct (IH _ _ _ _ Hl) as (rest & -> & Hr).
      exists rest. by rewrite fmap_app, app_assoc. }
    destruct c1 as [[]|err].
    + destruct (loop impl items name e w1) as [[tr2 c2] w2'] eqn:Hl.
      intros Heq.
      assert (tr = tr1 ++ tr2 ∧ c = c2 ∧ w' = w2') as (-> & -> & ->)
        by (destruct impl; by inversion Heq).
      eauto.
    + destruct impl.
      * intros [= <- <- <-]. exists (functions items). split; [done|].
        intros _. right. eauto.
      * destruct (loop Node items name e _) as [[tr2 c2] w2'] eqn:Hl.
        intros [= <- <- <-]. eauto.
      * destruct (loop Browser items name e _) as [[tr2 c2] w2'] eqn:Hl.
        intros [= <- <- <-]. eauto.
Qed.


Abbreviation resolved e eventName := (default (constructor_name e) eventName).

(** The four ways through [dispatch]. *)
Lemma dispatch_inv impl depth e eventName w tr c w' :
  run impl depth e eventName w = (tr, c, w') →
  (∃ err, emit impl (resolved e eventName) = Throw err ∧
     tr = [] ∧ c = Throw err ∧ w' = w) ∨
  emit impl (resolved e eventName) = Return () ∧
  ((hasListeners (Some (resolved e eventName)) (disp w) = false ∧
     tr = [] ∧ c = Return e ∧ w' = w) ∨
  (hasListeners (Some (resolved e eventName)) (disp w) = true ∧
     ∃ err d, getListeners depth (Some (resolved e eventName)) (disp w)
              = (Throw err, d) ∧
       tr = [] ∧ c = Throw err ∧ w' = set_disp d w) ∨
  (hasListeners (Some (resolved e eventName)) (disp w) = true ∧
     ∃ r d c0, getListeners depth (Some (resolved e eventName)) (disp w)
               = (Return r, d) ∧
       loop impl (iterate r) (resolved e eventName) e (set_disp d w)
       = (tr, c0, w') ∧
       c = match c0 with Return _ => Return e | Throw err => Throw err end)).
Proof.
  unfold dispatch. intros Hrun.
  destruct (emit impl (resolved e eventName)) as [[]|err0] eqn:Hemit.
  2:{ injection Hrun as <- <- <-. left. eauto. }
  right. split; [done|].
  destruct (hasListeners (Some (resolved e eventName)) (disp w)) eqn:Hhas;
    simpl in Hrun.
  2:{ injection Hrun as <- <- <-. by left. }
  right.
  destruct (getListeners depth (Some (resolved e eventName)) (disp w))
    as [[r|err] d] eqn:Hget.
  2:{ injection Hrun as <- <- <-. left. split; [done|]. eauto 10. }
  destruct (loop impl (iterate r) (resolved e eventName) e (set_disp d w))
    as [[tr0 c0] w0] eqn:Hloop.
  right. split; [done|]. exists r, d, c0.
  destruct c0; injection Hrun as <- <- <-; done.
Qed.

Lemma world_before_heap (w w0 : World Heap) tr k :
  heap w = heap w0 → heap (world_before w tr k) = heap (world_before w0 tr k).
Proof. intros Hh. by destruct k, tr as [|[??]?]. Qed.

(** C3.  When a stop-capable event is dispatched, the flag is tested
    before every invocation: a dispatch of an event that is already
    stopped invokes nothing; each invoked listener started with the flag
    clear; and when the listener at position [k] of the sorted sequence
    leaves the flag set, it is the last one invoked and the flag is still
    set when [dispatch] is over. *)
Theorem dispatch_stop_propagation impl depth e eventName (w : World Heap) :
  isStoppableEvent e = true →
  let r := run impl depth e eventName w in
  (isPropagationStopped e (heap w) = true → r.1.1 = []) ∧
  (∀ k f wk, r.1.1 !! k = Some (f, wk) →
     isPropagationStopped e (heap (world_before w r.1.1 k)) = false) ∧
  (∀ k f wk, r.1.1 !! k = Some (f, wk) →
     isPropagationStopped e (heap wk) = true →
     length r.1.1 = S k ∧ isPropagationStopped e (heap r.2) = true) ∧
  r.1.1.*1 `prefix_of` (getListenersOf (resolved e eventName) (disp w)).1.
Proof.
  intros Hcap. cbv zeta.
  destruct (run impl depth e eventName w) as [[tr c] w'] eqn:Hrun. simpl.
  destruct (dispatch_inv _ _ _ _ _ _ _ _ Hrun)
    as [(err & _ & -> & _)
       |[_ [(_ & -> & _)|[(_ & err & d & _ & -> & _)
                         |(Hhas & r & d & c0 & Hget & Hloop & _)]]]].
  1,2,3: repeat split; try done; apply prefix_nil.
  set (name := default (constructor_name e) eventName) in *.
  set (w0 := set_disp d w) in *.
  destruct (doDispatch_checked _ _ _ _ _ _ _ _ Hloop) as [Hchk Hlast].
  assert (Hbefore : ∀ k f wk, tr !! k = Some (f, wk) →
    isPropagationStopped e (heap (world_before w tr k)) = false).
  { intros k f wk Hk. rewrite (world_before_heap w w0) by done.
    pose proof (checked_lookup _ _ _ _ _ _ Hchk Hk) as Hs.
    by rewrite Hcap in Hs. }
  split; [|split; [done|split]].
  - intros Hs. destruct tr as [|[f w1] tr]; [done|].
    specialize (Hbefore 0 f w1 eq_refl). simpl in Hbefore. congruence.
  - intros k f wk Hk Hs.
    assert (length tr = S k) as Hlen.
    { destruct (tr !! S k) as [[g wg]|] eqn:HSk.
      - specialize (Hbefore _ _ _ HSk).
        rewrite (world_before_S _ _ _ _ _ Hk) in Hbefore. congruence.
      - apply lookup_ge_None in HSk. apply lookup_lt_Some in Hk. lia. }
    split; [done|]. by rewrite Hlast, (last_world_lookup _ _ _ _ _ Hk Hlen).
  - destruct (decide (name = "")) as [Hname|Hname].
    + destruct (getListeners_falsy depth (Some name) (disp w)) as [d' [[err Hg]|[m Hg]]].
      { rewrite Hname. unfold truthy. by case_decide. }
      { congruence. }
      rewrite Hget in Hg. injection Hg as -> ->.
      destruct (doDispatch_prefix _ _ _ _ _ _ _ _ Hloop) as (rest & Hfn & _).
      rewrite functions_iterate_AllMap in Hfn.
      symmetry in Hfn. apply app_eq_nil in Hfn as [-> _]. apply prefix_nil.
    + rewrite getListeners_truthy in Hget by done.
      injection Hget as <- <-.
      destruct (doDispatch_prefix _ _ _ _ _ _ _ _ Hloop) as (rest & Hfn & _).
      simpl in Hfn. rewrite functions_fmap_Fn in Hfn. by exists rest.
Qed.
End DispatchFacts.

Section Invariants.
Implicit Types (d : Dispatcher) (es : list ListenerEntry) (l : Listener).

Lemma no_empty_array_new : no_empty_array new_Dispatcher.
Proof. intros name es. simpl. by rewrite lookup_empty. Qed.

Lemma no_empty_array_addListener n l p d :
  no_empty_array d → no_empty_array (addListener n l p d).
Proof.
  intros Hd name es. rewrite listeners_addListener.
  destruct (decide (n = name)) as [->|Hne].
  - rewrite lookup_insert_eq. intros [= <-]. by destruct (entries name d).
  - rewrite lookup_insert_ne by done. apply Hd.
Qed.

Lemma no_empty_array_removeListener n l d :
  no_empty_array d → no_empty_array (removeListener n l d).
Proof.
  intros Hd name es. destruct (decide (n = name)) as [->|Hne].
  - rewrite lookup_removeListener_eq. destruct (listeners d !! name); [|done].
    case_decide; [done|]. by intros [= <-].
  - rewrite lookup_removeListener_ne by done. apply Hd.
Qed.

Lemma Array_sort_nil es : Array_sort byPriority es = [] → es = [].
Proof.
  intros H. apply Permutation_nil_r. by rewrite <- H, Array_sort_perm.
Qed.

Lemma no_empty_array_getListenersOf n d :
  no_empty_array d → no_empty_array (getListenersOf n d).2.
Proof.
  intros Hd name es Hes.
  assert (entries name (getListenersOf n d).2 = es) as Hent
    by (unfold entries; by rewrite Hes).
  rewrite entries_getListenersOf in Hent.
  destruct (listeners d !! name) as [es0|] eqn:H0.
  2:{ apply (dom_getListenersOf n) in H0. congruence. }
  specialize (Hd _ _ H0). unfold entries in Hent. rewrite H0 in Hent. simpl in Hent.
  case_decide; subst; [|done]. intros Hnil. by apply Array_sort_nil in Hnil.
Qed.
End Invariants.

Section FindFacts.
Lemma find_None {A} (p : A → bool) (l : list A) :
  find p l = None ↔ ∀ x, x ∈ l → p x = false.
Proof.
  rewrite find_findIndex, <- findIndex_None.
  destruct (findIndex p l) as [i|] eqn:Hi; simpl; [|done].
  apply findIndex_Some in Hi as (x & -> & _). done.
Qed.

Lemma find_Some {A} (p : A → bool) (l : list A) x :
  find p l = Some x ↔
  ∃ i, l !! i = Some x ∧ p x = true ∧ ∀ j y, j < i → l !! j = Some y → p y = false.
Proof.
  rewrite find_findIndex. split.
  - destruct (findIndex p l) as [i|] eqn:Hi; simpl; [|done].
    intros Hx. apply findIndex_Some in Hi as (x' & Hx' & Hp & Hmin).
    exists i. rewrite Hx in Hx'. injection Hx' as <-. done.
  - intros (i & Hx & Hp & Hmin).
    assert (findIndex p l = Some i) as -> by (apply findIndex_Some; eauto).
    done.
Qed.
End FindFacts.

(** C9.  [getListenerPriority] returns the priority stored with the
    callback, whatever its sign: the priority of the first entry of the
    name whose listener is the callback.  It returns [null] exactly when
    the name has no entry or no entry of the name has that listener. *)
Theorem getListenerPriority_spec (eventName : string) (l : Listener)
    (d : Dispatcher) :
  (∀ p : Z, getListenerPriority eventName l d = Some p ↔
     ∃ i x, entries eventName d !! i = Some x ∧ listener x = l ∧ priority x = p ∧
       ∀ j y, j < i → entries eventName d !! j = Some y → listener y ≠ l) ∧
  (getListenerPriority eventName l d = None ↔
     entries eventName d = [] ∨ ∀ x, x ∈ entries eventName d → listener x ≠ l).
Proof.
  unfold getListenerPriority, entries.
  destruct (listeners d !! eventName) as [es|]; simpl.
  - split.
    + intros p. destruct (find _ es) as [found|] eqn:Hf.
      * apply find_Some in Hf as (i & Hi & Hp & Hmin).
        apply bool_decide_eq_true in Hp. split.
        -- intros [= <-]. exists i, found. repeat split; [done..|].
           intros j y Hj Hy. specialize (Hmin j y Hj Hy).
           by apply bool_decide_eq_false in Hmin.
        -- intros (i' & x & Hi' & Hl & Hpx & Hmin').
           destruct (lt_eq_lt_dec i i') as [[Hlt| ->]|Hlt].
           ++ by specialize (Hmin' i found Hlt Hi).
           ++ rewrite Hi in Hi'. injection Hi' as <-. by rewrite Hpx.
           ++ specialize (Hmin i' x Hlt Hi').
              apply bool_decide_eq_false in Hmin. done.
      * split; [done|]. intros (i & x & Hi & Hl & _).
        rewrite find_None in Hf. apply list_elem_of_lookup_2 in Hi.
        specialize (Hf x Hi). by apply bool_decide_eq_false in Hf.
    + destruct (find _ es) as [found|] eqn:Hf.
      * split; [done|]. apply find_Some in Hf as (i & Hi & Hp & _).
        apply bool_decide_eq_true in Hp. apply list_elem_of_lookup_2 in Hi.
        intros [->|H]; [by apply elem_of_nil in Hi|]. by apply H in Hi.
      * split; [|done]. intros _. right. intros x Hx.
        rewrite find_None in Hf. specialize (Hf x Hx).
        by apply bool_decide_eq_false in Hf.
  - split.
    + intros p. split; [done|]. by intros (i & x & ? & _).
    + split; [|done]. intros _. by left.
Qed.

Lemma removeListener_not_registered (eventName : string) (l : Listener)
    (d : Dispatcher) :
  no_empty_array d →
  (∀ x, x ∈ entries eventName d → listener x ≠ l) →
  removeListener eventName l d = d.
Proof.
  intros Hd Habs. unfold entries in Habs.
  destruct (listeners d !! eventName) as [es|] eqn:Hn.
  2:{ unfold removeListener. by rewrite Hn. }
  simpl in Habs. pose proof (without_absent _ _ Habs) as Hw.
  apply Dispatcher_eq.
  - rewrite listeners_removeListener, Hn, Hw.
    rewrite decide_False by by apply (Hd eventName).
    by apply insert_id.
  - rewrite sorted_removeListener, Hn, Hw.
    by rewrite decide_False by by apply (Hd eventName).
  - apply subscriberListeners_removeListener.
Qed.

Lemma entries_removeListener n l d :
  entries n (removeListener n l d) = without l (entries n d).
Proof.
  unfold entries. rewrite lookup_removeListener_eq.
  destruct (listeners d !! n) as [es|]; simpl; [|done].
  case_decide as Hw; simpl; by rewrite ?Hw.
Qed.

(** C7.  In a registry without empty arrays, [removeListener] leaves the
    dispatcher as it was when the name is unknown, when no entry of the
    name has the callback, and when the callback has been removed
    already (a second removal changes nothing once the first has left no
    entry for it).  [removeListener] has no throwing path. *)
Theorem removeListener_absent_noop (eventName : string) (l : Listener)
    (d : Dispatcher) :
  no_empty_array d →
  (listeners d !! eventName = None → removeListener eventName l d = d) ∧
  ((∀ x, x ∈ entries eventName d → listener x ≠ l) →
     removeListener eventName l d = d) ∧
  ((∀ x, x ∈ without l (entries eventName d) → listener x ≠ l) →
     removeListener eventName l (removeListener eventName l d)
     = removeListener eventName l d).
Proof.
  intros Hd. split; [|split].
  - intros Hn. unfold removeListener. by rewrite Hn.
  - by apply removeListener_not_registered.
  - intros Habs. apply removeListener_not_registered.
    + by apply no_empty_array_removeListener.
    + by rewrite entries_removeListener.
Qed.

Section GlobalBranch.
Implicit Types (d : Dispatcher) (names : list string).
Implicit Types (self : option string → Dispatcher → Completion Listing * Dispatcher).

Lemma collect_throw self err d names :
  foldl (collect self) (Throw err, d) names = (Throw err, d).
Proof. induction names as [|n names IH]; simpl; auto. Qed.

Lemma collect_keys self acc d names m d' :
  foldl (collect self) (Return acc, d) names = (Return m, d') →
  m.*1 = acc.*1 ++ names.
Proof.
  revert acc d. induction names as [|n names IH]; intros acc d; simpl.
  - intros [= <- <-]. by rewrite app_nil_r.
  - destruct (self (Some n) d) as [[r|err] d1].
    + intros H. apply IH in H. rewrite H, fmap_app. simpl.
      by rewrite <- app_assoc.
    + by rewrite collect_throw.
Qed.

(** Without the empty name among the keys one nested call per key is
    all the branch needs. *)
Lemma collect_returns depth acc d names :
  "" ∉ names →
  ∃ m d', foldl (collect (getListeners depth)) (Return acc, d) names
          = (Return m, d').
Proof.
  revert acc d. induction names as [|n names IH]; intros acc d Hnames; simpl.
  - eauto.
  - rewrite getListeners_truthy.
    + apply IH. intros ?. apply Hnames. by right.
    + intros ->. apply Hnames. left.
Qed.

Lemma getListeners_global depth eventName d :
  truthy eventName = None → listeners d !! "" = None →
  ∃ m d', getListeners (S depth) eventName d = (Return (AllMap m), d').
Proof.
  intros Hf Hd. cbn [getListeners]. rewrite Hf.
  destruct (collect_returns depth [] d (map_to_list (listeners d)).*1)
    as (m & d' & ->); [|eauto].
  intros Hin. apply list_elem_of_fmap in Hin as ([n es] & Hn & Hin).
  simpl in Hn. subst n. apply elem_of_map_to_list in Hin. congruence.
Qed.

Lemma getListeners_keys depth eventName d m d' :
  getListeners depth eventName d = (Return (AllMap m), d') →
  ∀ name, name ∈ m.*1 → is_Some (listeners d !! name).
Proof.
  intros Hg name Hin.
  destruct (truthy eventName) as [n|] eqn:Hf.
  { destruct depth; cbn [getListeners] in Hg; rewrite Hf in Hg;
      by destruct (getListenersOf n d). }
  assert (∃ self, foldl (collect self) (Return [], d) (map_to_list (listeners d)).*1
                  = (Return m, d')) as [self Hfold].
  { destruct depth; cbn [getListeners] in Hg; rewrite Hf in Hg;
      match type of Hg with context [foldl (collect ?f) ?a ?l] =>
        exists f; destruct (foldl (collect f) a l) as [[m0|err] d0] end;
      by inversion Hg. }
  apply collect_keys in Hfold. simpl in Hfold. rewrite Hfold in Hin.
  apply list_elem_of_fmap in Hin as ([n es] & -> & Hin).
  apply elem_of_map_to_list in Hin. by eexists.
Qed.

Lemma collect_overflow self acc d names :
  keeps_overflowing self → "" ∈ names → is_Some (listeners d !! "") →
  ∃ d', foldl (collect self) (Return acc, d) names = (Throw RangeError, d')
        ∧ is_Some (listeners d' !! "").
Proof.
  intros Hself. revert acc d.
  induction names as [|n names IH]; intros acc d Hin Hd.
  { by apply elem_of_nil in Hin. }
  simpl. destruct (Hself n d Hd) as (Hd1 & Hempty & Herr).
  destruct (self (Some n) d) as [[r|err] d1] eqn:Hcall; simpl in *.
  - apply IH; [|done]. apply elem_of_cons in Hin as [<-|Hin]; [|done].
    by specialize (Hempty eq_refl).
  - rewrite collect_throw, (Herr err eq_refl). eauto.
Qed.

Lemma getListeners_overflow depth eventName d :
  truthy eventName = None → is_Some (listeners d !! "") →
  ∃ d', getListeners depth eventName d = (Throw RangeError, d')
        ∧ is_Some (listeners d' !! "").
Proof.
  revert eventName d. induction depth as [|depth IH]; intros eventName d Hf Hd.
  - cbn [getListeners]. rewrite Hf.
    destruct (collect_overflow stack_overflow [] d (map_to_list (listeners d)).*1)
      as (d' & -> & Hd'); [| |done|eauto].
    + intros n d0 Hd0. simpl. repeat split; [done|]. by intros err [= <-].
    + destruct Hd as [es Hes]. apply list_elem_of_fmap. exists ("", es).
      split; [done|]. by apply elem_of_map_to_list.
  - cbn [getListeners]. rewrite Hf.
    destruct (collect_overflow (getListeners depth) [] d
                (map_to_list (listeners d)).*1)
      as (d' & -> & Hd'); [| |done|eauto].
    + intros n d0 Hd0. destruct (decide (n = "")) as [->|Hn].
      * destruct (IH (Some "") d0) as (d1 & -> & Hd1); [done..|].
        simpl. repeat split; [done|]. by intros err [= <-].
      * rewrite getListeners_truthy by done. simpl. repeat split; [|done..].
        destruct (listeners (getListenersOf n d0).2 !! "") eqn:Hk; [done|].
        apply dom_getListenersOf in Hk. destruct Hd0. congruence.
    + destruct Hd as [es Hes]. apply list_elem_of_fmap. exists ("", es).
      split; [done|]. by apply elem_of_map_to_list.
Qed.
End GlobalBranch.

Lemma find_snoc {A} (p : A → bool) (l : list A) (x : A) :
  find p (l ++ [x])
  = match find p l with
    | Some y => Some y
    | None => if p x then Some x else None
    end.
Proof. induction l as [|z l IH]; simpl; [done|]. by destruct (p z). Qed.

(** C8, amended.  For a non-empty name: when [removeListener] removes
    the last entry of the name, the name and its flag leave the registry,
    [hasListeners(name)] is false, and no mapping returned by
    [getListeners()] has the name; [getListeners()] does return one when
    the empty name is not registered. *)
Theorem emptied_name_forgotten (name : string) (l : Listener)
    (x : ListenerEntry) (d : Dispatcher) :
  name ≠ "" →
  listeners d !! name = Some [x] → listener x = l →
  let d' := removeListener name l d in
  forgotten name d' ∧
  listeners d' = delete name (listeners d) ∧
  sorted d' = delete name (sorted d) ∧
  (listeners d' !! "" = None →
     ∀ depth, ∃ m d'', getListeners (S depth) None d' = (Return (AllMap m), d'')
                       ∧ name ∉ m.*1).
Proof.
  intros Hname Hx Hl d'.
  assert (without l [x] = []) as Hw.
  { unfold without. simpl. by rewrite bool_decide_eq_true_2. }
  assert (listeners d' = delete name (listeners d)) as Hlist.
  { unfold d'. by rewrite listeners_removeListener, Hx, Hw. }
  assert (∀ depth m d'', getListeners depth None d' = (Return (AllMap m), d'') →
            name ∉ m.*1) as Hmap.
  { intros depth m d'' Hg Hin.
    destruct (getListeners_keys _ _ _ _ _ Hg name Hin) as [es Hes].
    by rewrite Hlist, lookup_delete_eq in Hes. }
  split; [split; [|done]|split; [done|split]].
  - unfold hasListeners. rewrite truthy_Some by done.
    by rewrite Hlist, lookup_delete_eq.
  - unfold d'. by rewrite sorted_removeListener, Hx, Hw.
  - intros Hempty depth.
    destruct (getListeners_global depth None d') as (m & d'' & Hg); [done..|].
    exists m, d''. split; [done|]. by eapply Hmap.
Qed.

Section SortCache.
Implicit Types (d : Dispatcher) (es : list ListenerEntry) (l : Listener).

Lemma sorted_getListenersOf n d name :
  sorted (getListenersOf n d).2 !! name = Some true →
  sorted d !! name = Some true ∨
  (name = n ∧ needs_resort n d ∧ (getListenersOf n d).2 = sortListeners n d).
Proof.
  rewrite getListenersOf_state. unfold needs_resort.
  destruct (listeners d !! n) as [es|]; [|by left].
  destruct (sorted d !! n) as [[]|] eqn:Hs; [by left|..]; simpl;
    (destruct (decide (n = name)) as [->|Hne];
      [intros _; by right
      |rewrite lookup_insert_ne by done; by left]).
Qed.

Lemma sorted_getListenersOf_known n d :
  is_Some (listeners d !! n) → sorted (getListenersOf n d).2 !! n = Some true.
Proof.
  intros [es Hes]. rewrite getListenersOf_state, Hes.
  destruct (sorted d !! n) as [[]|] eqn:Hs; [done|..]; simpl;
    by rewrite lookup_insert_eq.
Qed.

Lemma sorted_removeListener_lookup n l d name :
  sorted (removeListener n l d) !! name = sorted d !! name ∨
  (name = n ∧ listeners (removeListener n l d) !! n = None
            ∧ sorted (removeListener n l d) !! n = None).
Proof.
  rewrite sorted_removeListener, lookup_removeListener_eq.
  destruct (listeners d !! n) as [es|]; [|by left].
  case_decide; [|by left].
  destruct (decide (n = name)) as [->|Hne].
  - right. by rewrite lookup_delete_eq.
  - left. by rewrite lookup_delete_ne.
Qed.

Lemma sorted_foldl_removeListener (bl : list (string * Listener)) d name :
  sorted (foldl (λ d '(n, l), removeListener n l d) d bl) !! name = Some true →
  sorted d !! name = Some true.
Proof.
  revert d. induction bl as [|[n l] bl IH]; intros d; simpl; [done|].
  intros H. apply IH in H.
  destruct (sorted_removeListener_lookup n l d name) as [<-|(-> & _ & Hn)]; [done|].
  congruence.
Qed.

Lemma sorted_removeSubscriber s d name :
  sorted (removeSubscriber s d) !! name = Some true →
  sorted d !! name = Some true.
Proof.
  unfold removeSubscriber. destruct (subscriberListeners d !! identity s); [|done].
  simpl. apply sorted_foldl_removeListener.
Qed.

Lemma sorted_subscribe s acc entry name :
  sorted (dispatcher (subscribe s acc entry).2) !! name = Some true →
  sorted (dispatcher acc.2) !! name = Some true.
Proof.
  destruct acc as [[bl|err] st], entry as [n params]; simpl; [|done].
  destruct params as [m|m q]; destruct (has_method s m); simpl; try done;
    (destruct (decide (n = name)) as [->|Hne];
      [by rewrite lookup_insert_eq|by rewrite lookup_insert_ne]).
Qed.

Lemma sorted_foldl_subscribe s evs acc name :
  sorted (dispatcher (foldl (subscribe s) acc evs).2) !! name = Some true →
  sorted (dispatcher acc.2) !! name = Some true.
Proof.
  revert acc. induction evs as [|ev evs IH]; intros acc; simpl; [done|].
  intros H. apply IH in H. by apply sorted_subscribe in H.
Qed.

Lemma sorted_addSubscriber s st name :
  sorted (dispatcher (addSubscriber s st).2) !! name = Some true →
  sorted (dispatcher st) !! name = Some true.
Proof.
  unfold addSubscriber.
  destruct (foldl (subscribe s) (Return [], st) _) as [[bl|err] st'] eqn:Hf;
    simpl; intros H;
    apply (sorted_foldl_subscribe s (map_to_list (getSubscribedEvents s))
             (Return [], st) name); by rewrite Hf.
Qed.
End SortCache.

(** C5, amended.  The flag of a name is marked dirty by every
    [addListener] on the name.  [removeListener] leaves every flag as it
    finds it, except that it drops the flag of a name together with the
    name when it removes its last entry: the flags after the call are
    those before it, less the one of the name exactly when the call
    takes the name out of the registry.  Removing an entry keeps a
    sorted array sorted.  A flag is set clean only by the sort step of a
    lookup, which a lookup of a known name always leaves clean. *)
Theorem sort_flag_transitions (n : string) (l : Listener) (p : Z)
    (d : Dispatcher) :
  needs_resort n (addListener n l p d) ∧
  (∀ name,
     sorted (removeListener n l d) !! name = sorted d !! name ∨
     (name = n ∧ listeners (removeListener n l d) !! n = None
               ∧ sorted (removeListener n l d) !! n = None)) ∧
  sorted (removeListener n l d)
  = (if decide (is_Some (listeners d !! n)
                ∧ listeners (removeListener n l d) !! n = None)
     then delete n (sorted d) else sorted d) ∧
  (∀ es, listeners d !! n = Some es →
     listeners (removeListener n l d) !! n = None
     ↔ es = [] ∨ ∃ x, es = [x] ∧ listener x = l) ∧
  (desc (entries n d) → desc (entries n (removeListener n l d))) ∧
  (∀ name, sorted (addListener n l p d) !! name = Some true →
     sorted d !! name = Some true) ∧
  (∀ name, sorted (removeListener n l d) !! name = Some true →
     sorted d !! name = Some true) ∧
  (∀ s st name, sorted (dispatcher (addSubscriber s st).2) !! name = Some true →
     sorted (dispatcher st) !! name = Some true) ∧
  (∀ s name, sorted (removeSubscriber s d) !! name = Some true →
     sorted d !! name = Some true) ∧
  (∀ name, sorted (getListenersOf n d).2 !! name = Some true →
     sorted d !! name = Some true ∨
     (name = n ∧ needs_resort n d ∧ (getListenersOf n d).2 = sortListeners n d)) ∧
  (is_Some (listeners d !! n) → sorted (getListenersOf n d).2 !! n = Some true).
Proof.
  repeat split.
  - unfold needs_resort. by rewrite sorted_addListener, lookup_insert_eq.
  - apply sorted_removeListener_lookup.
  - rewrite sorted_removeListener, lookup_removeListener_eq.
    destruct (listeners d !! n) as [es|].
    + destruct (decide (without l es = [])).
      * by rewrite decide_True.
      * rewrite decide_False; [done|]. by intros [_ [=]].
    + rewrite decide_False; [done|]. by intros [[? [=]] _].
  - rewrite lookup_removeListener_eq, H.
    destruct es as [|x es]; [by left|]. rewrite without_cons.
    destruct (decide (listener x = l)) as [Hx|Hx].
    + case_decide as He; [|by intros [=]]. subst es. intros _. right. eauto.
    + rewrite decide_False by done. intros [=].
  - rewrite lookup_removeListener_eq, H.
    intros [->|(x & -> & <-)]; [done|].
    rewrite without_cons.
    destruct (decide (listener x = listener x)) as [_|?]; [|done].
    by rewrite decide_True.
  - rewrite entries_removeListener. apply desc_sublist, without_sublist.
  - intros name. rewrite sorted_addListener.
    destruct (decide (n = name)) as [->|Hne];
      [by rewrite lookup_insert_eq|by rewrite lookup_insert_ne].
  - intros name H.
    destruct (sorted_removeListener_lookup n l d name) as [<-|(-> & _ & Hn)];
      [done|congruence].
  - apply sorted_addSubscriber.
  - intros s name. apply sorted_removeSubscriber.
  - apply sorted_getListenersOf.
  - apply sorted_getListenersOf_known.
Qed.

Section Tracking.
Implicit Types (d : Dispatcher) (regs : list ListenerEntry) (ops : list Op).





End Tracking.

Section SubscriberFacts.
Implicit Types (d : Dispatcher) (st : Store) (s : Subscriber).
Implicit Types (bl new : list (string * Listener)).

Lemma pending_nil d dmid :
  pending [] d dmid → listeners dmid = listeners d.
Proof.
  intros (_ & Hsame & _). apply map_eq. intros name. apply Hsame.
  apply not_elem_of_nil.
Qed.

Lemma pending_removeListener n b new d dmid :
  no_empty_array d →
  pending ((n, b) :: new) d dmid → pending new d (removeListener n b dmid).
Proof.
  intros Hd (Hnd & Hsame & Hnew). simpl in Hnd.
  apply NoDup_cons in Hnd as [Hn Hnd]. split; [done|]. split.
  - intros name Hname. destruct (decide (n = name)) as [<-|Hne].
    + destruct (Hnew n b) as (Hfresh & p & Hmid); [left|].
      rewrite lookup_removeListener_eq, Hmid, without_snoc by done.
      unfold entries. destruct (listeners d !! n) as [es|] eqn:Hes; simpl.
      * rewrite decide_False; [done|]. by apply (Hd n).
      * done.
    + rewrite lookup_removeListener_ne by done. apply Hsame.
      simpl. intros [?|?]%elem_of_cons; done.
  - intros name b' Hin. destruct (Hnew name b') as (Hfresh & p & Hmid); [by right|].
    split; [done|]. exists p. rewrite lookup_removeListener_ne; [done|].
    intros <-. apply Hn. apply list_elem_of_fmap. by exists (n, b').
Qed.

Lemma pending_foldl_removeListener new d dmid :
  no_empty_array d → pending new d dmid →
  listeners (foldl (λ d '(n, l), removeListener n l d) dmid new) = listeners d.
Proof.
  intros Hd. revert dmid. induction new as [|[n b] new IH]; intros dmid Hp; simpl.
  - by apply pending_nil.
  - apply IH. by apply pending_removeListener.
Qed.

Lemma subscriberListeners_foldl_removeListener bl d :
  subscriberListeners (foldl (λ d '(n, l), removeListener n l d) d bl)
  = subscriberListeners d.
Proof.
  revert d. induction bl as [|[n b] bl IH]; intros d; simpl; [done|].
  by rewrite IH, subscriberListeners_removeListener.
Qed.

Lemma subscribe_throw s err st evs :
  foldl (subscribe s) (Throw err, st) evs = (Throw err, st).
Proof. induction evs as [|ev evs IH]; simpl; auto. Qed.

(** One round of the loop of [addSubscriber]. *)
Lemma subscribe_step s d base bl stc entry bl' st' :
  listeners_below base d → base ≤ allocated stc →
  pending bl d (dispatcher stc) → entry.1 ∉ bl.*1 →
  subscribe s (Return bl, stc) entry = (Return bl', st') →
  bl'.*1 = bl.*1 ++ [entry.1] ∧ base ≤ allocated st' ∧
  pending bl' d (dispatcher st') ∧
  subscriberListeners (dispatcher st') = subscriberListeners (dispatcher stc).
Proof.
  intros Hbelow Hbase (Hnd & Hsame & Hnew) Hfresh.
  destruct entry as [n params]. simpl in Hfresh. unfold subscribe.
  set (mp := match params with
             | MethodName m => (m, 0%Z)
             | Descriptor m p => (m, default 0%Z p)
             end).
  destruct mp as [m p]. destruct (has_method s m); [|done].
  intros [= <- <-]. simpl.
  assert (entries n (dispatcher stc) = entries n d) as Hent.
  { unfold entries. by rewrite Hsame. }
  split; [by rewrite fmap_app|]. split; [lia|]. split; [|done].
  split; [|split].
  - rewrite fmap_app. apply NoDup_app. split; [done|]. split.
    + intros x Hx [->|[]%elem_of_nil]%elem_of_cons. done.
    + apply NoDup_singleton.
  - intros name Hname. rewrite fmap_app in Hname.
    rewrite listeners_addListener, lookup_insert_ne.
    + apply Hsame. intros ?. apply Hname. apply elem_of_app. by left.
    + intros <-. apply Hname. apply elem_of_app. right. left.
  - intros name b [Hin|Hin]%elem_of_app.
    + destruct (Hnew name b Hin) as (Hb & q & Hq). split; [done|].
      exists q. rewrite listeners_addListener, lookup_insert_ne; [done|].
      intros <-. apply Hfresh. apply list_elem_of_fmap. by exists (n, b).
    + apply list_elem_of_singleton in Hin. injection Hin as -> ->. split.
      * intros x Hx. unfold entries in Hx.
        destruct (listeners d !! n) as [es|] eqn:Hes; simpl in Hx;
          [|by apply elem_of_nil in Hx].
        specialize (Hbelow n es x Hes Hx). lia.
      * exists p. by rewrite listeners_addListener, lookup_insert_eq, Hent.
Qed.

Lemma subscribe_loop s d base evs bl stc bl' st' :
  listeners_below base d → base ≤ allocated stc →
  pending bl d (dispatcher stc) → NoDup (bl.*1 ++ evs.*1) →
  foldl (subscribe s) (Return bl, stc) evs = (Return bl', st') →
  bl'.*1 = bl.*1 ++ evs.*1 ∧ pending bl' d (dispatcher st') ∧
  subscriberListeners (dispatcher st') = subscriberListeners (dispatcher stc).
Proof.
  intros Hbelow. revert bl stc.
  induction evs as [|ev evs IH]; intros bl stc Hbase Hp Hnd; cbn [foldl].
  - intros [= <- <-]. by rewrite app_nil_r.
  - destruct (subscribe s (Return bl, stc) ev) as [[bl1|err] st1] eqn:Hstep.
    2:{ by rewrite subscribe_throw. }
    rewrite fmap_cons in Hnd.
    destruct (subscribe_step s d base bl stc ev bl1 st1)
      as (Hkeys & Hbase1 & Hp1 & Hsub1); [done..| |done|].
    { intros Hin. apply NoDup_app in Hnd as (_ & Hdisj & _).
      apply (Hdisj _ Hin). left. }
    intros Hfold. apply IH in Hfold as (Hkeys' & Hp' & Hsub'); [|done..|].
    + rewrite Hkeys' , Hkeys, <- app_assoc. split; [done|]. split; [done|].
      congruence.
    + by rewrite Hkeys, <- app_assoc.
Qed.

Lemma pending_start d : pending [] d d.
Proof.
  split; [constructor|]. split; [done|]. by intros name b Hin%elem_of_nil.
Qed.


End SubscriberFacts.


Section DispatchClaims.
Context {Heap Event : Type}.
Variable constructor_name : Event → string.
Variable isStoppableEvent : Event → bool.
Variable isPropagationStopped : Event → Heap → bool.
Variable call : Listener → Event → World Heap → Completion () * World Heap.

Abbreviation loop := (doDispatch isStoppableEvent isPropagationStopped call).
Abbreviation run := (dispatch constructor_name isStoppableEvent isPropagationStopped call).
Abbreviation stopped e w := (isStoppableEvent e && isPropagationStopped e (heap w)).


(** [dispatch] hands back the reference it was given whenever it
    returns. *)
Lemma dispatch_returns_same_event impl depth e eventName w tr x w' :
  run impl depth e eventName w = (tr, Return x, w') → x = e.
Proof.
  intros Hrun. apply dispatch_inv in Hrun
    as [(err & _ & _ & [=] & _)
       |[_ [(_ & _ & [= ->] & _)|[(_ & err & d & _ & _ & [=] & _)
                                 |(_ & r & d & c0 & _ & _ & Hc)]]]]; [done|].
  destruct c0; by inversion Hc.
Qed.


Lemma hasListeners_falsy_key eventName name d :
  truthy eventName = None → is_Some (listeners d !! name) →
  hasListeners eventName d = true.
Proof.
  intros Hf Hkey. unfold hasListeners. rewrite Hf. apply Nat.ltb_lt.
  pose proof (map_size_ne_0_lookup_2 (listeners d) name Hkey) as Hsize.
  revert Hsize. generalize (size (listeners d)). lia.
Qed.

(** A dispatch whose name resolves to the empty string, with a listener
    registered under it: the lookup overflows the stack and nothing is
    invoked. *)
Lemma dispatch_empty_name_overflow impl depth e eventName (w : World Heap) :
  default (constructor_name e) eventName = "" →
  is_Some (listeners (disp w) !! "") →
  (run impl depth e eventName w).1.1 = [] ∧
  (run impl depth e eventName w).1.2 = Throw RangeError.
Proof.
  intros Hname Hkey. unfold dispatch. rewrite Hname.
  assert (emit impl "" = Return ()) as -> by (by destruct impl).
  rewrite (hasListeners_falsy_key (Some "") "" (disp w)) by done. simpl.
  by destruct (getListeners_overflow depth (Some "") (disp w))
    as (d' & -> & _).
Qed.

(** C10, at the input where the code departs from it.  Once a listener
    is registered under the empty name, [addListener] has stored it
    under [""] and [getListenerPriority] finds it there, and
    [hasListeners("")] is the global test; but [getListeners("")]
    (like [getListeners()]) returns no mapping: the no-argument branch
    calls itself for the key [""] until the stack is exhausted,
    whatever its size, and a [dispatch] for the empty name ends in
    that same [RangeError] without invoking a listener. *)
Theorem getListeners_empty_name_overflows (f : Listener) (p : Z)
    (d : Dispatcher) (depth : nat) :
  let d1 := addListener "" f p d in
  entries "" d1 = entries "" d ++ [Entry f p] ∧
  getListenerPriority "" f d1
    = Some (default p (getListenerPriority "" f d)) ∧
  hasListeners (Some "") d1 = hasListeners None d1 ∧
  hasListeners (Some "") d1 = true ∧
  (getListeners depth (Some "") d1).1 = Throw RangeError ∧
  (getListeners depth None d1).1 = Throw RangeError ∧
  (∀ impl e eventName (w : World Heap),
     default (constructor_name e) eventName = "" → disp w = d1 →
     (run impl depth e eventName w).1.1 = [] ∧
     (run impl depth e eventName w).1.2 = Throw RangeError).
Proof.
  intros d1.
  assert (entries "" d1 = entries "" d ++ [Entry f p]) as Hent.
  { unfold d1. rewrite entries_addListener. by rewrite decide_True. }
  assert (is_Some (listeners d1 !! "")) as Hkey.
  { unfold d1. rewrite listeners_addListener, lookup_insert_eq. by eexists. }
  split; [done|]. split; [|split; [done|split; [|split; [|split]]]].
  - unfold getListenerPriority. destruct Hkey as [es1 Hes1]. rewrite Hes1.
    unfold entries in Hent. rewrite Hes1 in Hent. simpl in Hent. subst es1.
    rewrite find_snoc. destruct (listeners d !! "") as [es|]; simpl.
    + destruct (find _ es); [done|]. simpl. by rewrite bool_decide_eq_true_2.
    + by rewrite bool_decide_eq_true_2.
  - by apply (hasListeners_falsy_key (Some "") "").
  - by destruct (getListeners_overflow depth (Some "") d1) as (d' & -> & _).
  - by destruct (getListeners_overflow depth None d1) as (d' & -> & _).
  - intros impl e eventName w Hname Hw.
    apply dispatch_empty_name_overflow; [done|]. by rewrite Hw.
Qed.

End DispatchClaims.

(** C1, at an input where [SimpleEventDispatcher] departs from it.  With
    a throwing listener registered ahead of [A], its [dispatch] lets the
    exception out and never invokes [A]; on the same registry the Node
    and browser classes report the error and go on to [A]. *)
Theorem simple_dispatch_lets_listener_error_escape :
  (getListenersOf "x" Scenario.failing_first).1 = [Scenario.failing; Scenario.A] ∧
  (let r := Scenario.run Simple 0 () (Some "x") (Scenario.world Scenario.failing_first) in
   r.1.1.*1 = [Scenario.failing] ∧ r.1.2 = Throw (UserError 0)) ∧
  (∀ impl, impl ≠ Simple →
   let r := Scenario.run impl 0 () (Some "x") (Scenario.world Scenario.failing_first) in
   r.1.1.*1 = [Scenario.failing; Scenario.A] ∧ r.1.2 = Return () ∧
   console r.2 = [LogError "x" (UserError 0)]).
Proof.
  split; [reflexivity|]. split; [split; reflexivity|].
  intros [] Himpl; [done|..]; repeat split; reflexivity.
Qed.

(** C4, at inputs where the code departs from it.  [dispatch] of
    [SimpleEventDispatcher] does not return the event when a listener
    throws, and no class returns it for the empty name once a listener is
    registered under that name. *)
Theorem dispatch_does_not_always_return_event :
  (Scenario.run Simple 0 () (Some "x") (Scenario.world Scenario.failing_first)).1.2
    = Throw (UserError 0) ∧
  (∀ impl depth,
     (Scenario.run impl depth () (Some "") (Scenario.world Scenario.unnamed)).1.2
     = Throw RangeError).
Proof.
  split; [reflexivity|]. intros impl depth.
  unfold Scenario.run, dispatch. simpl default.
  assert (emit impl "" = Return ()) as -> by (by destruct impl).
  assert (hasListeners (Some "") (disp (Scenario.world Scenario.unnamed)) = true)
    as -> by reflexivity.
  simpl negb. cbv iota.
  destruct (getListeners_overflow depth (Some "") (disp (Scenario.world Scenario.unnamed)))
    as (d' & -> & _); [done|by eexists|done].
Qed.

Section WellFormed.
Implicit Types (d : Dispatcher) (st : Store).

Lemma listeners_below_new n : listeners_below n new_Dispatcher.
Proof. intros name es x. simpl. by rewrite lookup_empty. Qed.

Lemma listeners_below_addListener n name l p d :
  l < n → listeners_below n d → listeners_below n (addListener name l p d).
Proof.
  intros Hl Hd name' es x. rewrite listeners_addListener.
  destruct (decide (name = name')) as [<-|Hne].
  - rewrite lookup_insert_eq. intros [= <-] [Hx|Hx]%elem_of_app.
    + unfold entries in Hx. destruct (listeners d !! name) as [es|] eqn:Hes;
        [by eapply Hd|by apply elem_of_nil in Hx].
    + by apply list_elem_of_singleton in Hx as ->.
  - rewrite lookup_insert_ne by done. apply Hd.
Qed.

Lemma listeners_below_removeListener n name l d :
  listeners_below n d → listeners_below n (removeListener name l d).
Proof.
  intros Hd name' es x. destruct (decide (name = name')) as [<-|Hne].
  - rewrite lookup_removeListener_eq.
    destruct (listeners d !! name) as [es0|] eqn:Hes; [|done].
    case_decide; [done|]. intros [= <-] Hx. apply (Hd name es0); [done|].
    eapply elem_of_sublist; [done|apply without_sublist].
  - rewrite lookup_removeListener_ne by done. apply Hd.
Qed.

Lemma listeners_below_getListenersOf n name d :
  listeners_below n d → listeners_below n (getListenersOf name d).2.
Proof.
  intros Hd name' es x Hes Hx.
  assert (x ∈ entries name' (getListenersOf name d).2) as Hin
    by (unfold entries; by rewrite Hes).
  rewrite entries_getListenersOf in Hin.
  assert (x ∈ entries name' d) as Hin'.
  { case_decide; [|done]. by rewrite Array_sort_perm in Hin. }
  unfold entries in Hin'. destruct (listeners d !! name') as [es0|] eqn:H0;
    [by eapply Hd|by apply elem_of_nil in Hin'].
Qed.

(** The registries built by registrations and lookups are well formed. *)
Lemma well_formed_run_ops ops n :
  (∀ name l p, OpAdd name l p ∈ ops → l < n) →
  well_formed {| dispatcher := run_ops ops new_Dispatcher; allocated := n |}.
Proof.
  unfold well_formed, run_ops. simpl.
  generalize no_empty_array_new (listeners_below_new n).
  generalize new_Dispatcher.
  induction ops as [|op ops IH]; intros d Hne Hbelow Hops; [done|].
  simpl. apply IH.
  - destruct op; [by apply no_empty_array_addListener
                 |by apply no_empty_array_getListenersOf].
  - destruct op as [name l p|name].
    + apply listeners_below_addListener; [|done]. apply (Hops name l p). left.
    + by apply listeners_below_getListenersOf.
  - intros name l p Hin. apply (Hops name l p). by right.
Qed.
Lemma listeners_below_mono n m d : n ≤ m → listeners_below n d → listeners_below m d.
Proof. intros Hnm Hd name es x Hes Hx. specialize (Hd name es x Hes Hx). lia. Qed.

Lemma well_formed_subscribe s bl st entry :
  well_formed st → well_formed (subscribe s (Return bl, st) entry).2.
Proof.
  intros Hwf. destruct entry as [n params]. unfold subscribe.
  destruct params as [m|m q]; destruct (has_method s m); simpl; try done;
    destruct Hwf as [Hne Hbelow];
    (split; simpl;
      [by apply no_empty_array_addListener
      |apply listeners_below_addListener; [lia|];
       apply (listeners_below_mono (allocated st)); [lia|done]]).
Qed.

Lemma well_formed_foldl_subscribe s evs acc :
  well_formed acc.2 → well_formed (foldl (subscribe s) acc evs).2.
Proof.
  revert acc. induction evs as [|ev evs IH]; intros [c st] Hwf; [done|].
  cbn [foldl]. apply IH. destruct c as [bl|err]; [|done].
  by apply well_formed_subscribe.
Qed.

Lemma well_formed_addSubscriber s st :
  well_formed st → well_formed (addSubscriber s st).2.
Proof.
  intros Hwf. unfold addSubscriber.
  pose proof (well_formed_foldl_subscribe s
                (map_to_list (getSubscribedEvents s)) (Return [], st) Hwf) as H.
  destruct (foldl (subscribe s) (Return [], st) _) as [[bl|err] st']; done.
Qed.

Lemma well_formed_removeSubscriber s st :
  well_formed st →
  well_formed {| dispatcher := removeSubscriber s (dispatcher st);
                 allocated := allocated st |}.
Proof.
  intros [Hne Hbelow]. unfold removeSubscriber, well_formed. simpl.
  destruct (subscriberListeners (dispatcher st) !! identity s) as [bl|]; [|done].
  revert Hne Hbelow. generalize (dispatcher st) as d.
  induction bl as [|[n b] bl IH]; intros d Hne Hbelow; [done|].
  cbn [foldl]. apply IH.
  - by apply no_empty_array_removeListener.
  - by apply listeners_below_removeListener.
Qed.
End WellFormed.

(** ** Instances of the theorems, and the inputs their amended statements exclude *)



Lemma dispatch_stop_propagation_witness :
  Scenario.isStoppableEvent () = true ∧
  let r := Scenario.run Node 0 () (Some "x") (Scenario.world Scenario.abc) in
  r.1.1.*1 = [Scenario.A; Scenario.B] ∧
  (∀ k f wk, r.1.1 !! k = Some (f, wk) →
     Scenario.isPropagationStopped () (heap wk) = true →
     length r.1.1 = S k ∧ Scenario.isPropagationStopped () (heap r.2) = true).
Proof.
  split; [reflexivity|]. split; [reflexivity|].
  apply (dispatch_stop_propagation Scenario.constructor_name
           Scenario.isStoppableEvent Scenario.isPropagationStopped Scenario.call
           Node 0 () (Some "x") (Scenario.world Scenario.abc)).
  reflexivity.
Defined.

(** C5 as stated fails for [removeListener]: after a lookup has sorted
    the array of ["x"], removing one of its two listeners leaves the flag
    clean. *)
Lemma remove_marks_dirty_counterexample :
  entries "x" Scenario.looked_up = [Entry Scenario.B 5; Entry Scenario.A 0] ∧
  entries "x" (removeListener "x" Scenario.A Scenario.looked_up)
    = [Entry Scenario.B 5] ∧
  ¬ needs_resort "x" (removeListener "x" Scenario.A Scenario.looked_up).
Proof.
  split; [reflexivity|]. split; [reflexivity|]. intros H. by apply H.
Qed.


Lemma removeListener_absent_noop_witness :
  no_empty_array Scenario.abc ∧
  listeners Scenario.abc !! "y" = None ∧
  removeListener "y" Scenario.A Scenario.abc = Scenario.abc ∧
  (∀ x, x ∈ entries "x" Scenario.abc → listener x ≠ Scenario.failing) ∧
  removeListener "x" Scenario.failing Scenario.abc = Scenario.abc ∧
  removeListener "x" Scenario.A (removeListener "x" Scenario.A Scenario.abc)
  = removeListener "x" Scenario.A Scenario.abc.
Proof.
  assert (no_empty_array Scenario.abc) as Hne.
  { apply (well_formed_run_ops Scenario.abc_ops 3).
    intros name l p Hin. repeat (apply elem_of_cons in Hin as [[= _ -> _]|Hin]);
      [cbv; lia..|by apply elem_of_nil in Hin]. }
  assert (∀ x, x ∈ entries "x" Scenario.abc → listener x ≠ Scenario.failing)
    as Habs.
  { intros x Hin. repeat (apply elem_of_cons in Hin as [->|Hin]);
      [done..|by apply elem_of_nil in Hin]. }
  destruct (removeListener_absent_noop "y" Scenario.A Scenario.abc Hne)
    as (Hunknown & _ & _).
  destruct (removeListener_absent_noop "x" Scenario.failing Scenario.abc Hne)
    as (_ & Hnever & _).
  destruct (removeListener_absent_noop "x" Scenario.A Scenario.abc Hne)
    as (_ & _ & Hagain).
  split; [done|]. split; [reflexivity|]. split; [by apply Hunknown|].
  split; [done|]. split; [by apply Hnever|].
  apply Hagain. intros x Hin.
  repeat (apply elem_of_cons in Hin as [->|Hin]);
    [done..|by apply elem_of_nil in Hin].
Defined.

Lemma emptied_name_forgotten_witness :
  "x" ≠ "" ∧
  listeners Scenario.unnamed_and_x !! "x" = Some [Entry Scenario.B 0] ∧
  forgotten "x" (removeListener "x" Scenario.B Scenario.unnamed_and_x).
Proof.
  split; [discriminate|]. split; [reflexivity|].
  apply (emptied_name_forgotten "x" Scenario.B (Entry Scenario.B 0)
           Scenario.unnamed_and_x); [discriminate|reflexivity|reflexivity].
Defined.

(** C8 as stated fails for the empty name: after its last listener is
    removed, [hasListeners("")] still answers for the whole registry. *)
Lemma emptied_name_forgotten_counterexample :
  listeners Scenario.unnamed_and_x !! "" = Some [Entry Scenario.A 0] ∧
  listeners (removeListener "" Scenario.A Scenario.unnamed_and_x) !! "" = None ∧
  ¬ forgotten "" (removeListener "" Scenario.A Scenario.unnamed_and_x).
Proof.
  split; [reflexivity|]. split; [reflexivity|]. intros [Hhas _].
  revert Hhas. by vm_compute.
Qed.

(** * Further properties of the code *)

Section MoreRegistryFacts.
Implicit Types (d : Dispatcher) (es : list ListenerEntry) (l : Listener).

Lemma sorted_sortListeners n d name :
  sorted (sortListeners n d) !! name
  = if decide (n = name) then Some true else sorted d !! name.
Proof.
  unfold sortListeners. simpl. case_decide as Hn.
  - subst. by rewrite lookup_insert_eq.
  - by rewrite lookup_insert_ne.
Qed.

Lemma lookup_getListenersOf_ne n d name :
  n ≠ name →
  listeners (getListenersOf n d).2 !! name = listeners d !! name ∧
  sorted (getListenersOf n d).2 !! name = sorted d !! name.
Proof.
  intros Hne. rewrite getListenersOf_state.
  destruct (listeners d !! n) as [es|]; [|done].
  destruct (sorted d !! n) as [[]|]; [done|..];
    by rewrite listeners_sortListeners, lookup_alter_ne, sorted_sortListeners,
         decide_False.
Qed.

Lemma subscriberListeners_getListenersOf n d :
  subscriberListeners (getListenersOf n d).2 = subscriberListeners d.
Proof.
  rewrite getListenersOf_state. destruct (listeners d !! n); [|done].
  by destruct (sorted d !! n) as [[]|].
Qed.

Lemma entries_getListenersOf_perm n d name :
  entries name (getListenersOf n d).2 ≡ₚ entries name d.
Proof.
  rewrite entries_getListenersOf. case_decide; [|done]. apply Array_sort_perm.
Qed.

Lemma entries_getListenersOf_ties n d name :
  same_ties (entries name (getListenersOf n d).2) (entries name d).
Proof.
  rewrite entries_getListenersOf. case_decide; [|done]. apply Array_sort_ties.
Qed.

Lemma sorted_sound_getListenersOf n d :
  sorted_sound d → sorted_sound (getListenersOf n d).2.
Proof.
  intros Hd name Hs. rewrite entries_getListenersOf. case_decide as Hc.
  - apply Array_sort_desc.
  - apply sorted_getListenersOf in Hs as [Hs|(-> & Hr & _)]; [by apply Hd|].
    exfalso. by apply Hc.
Qed.

Lemma sorted_sound_new : sorted_sound new_Dispatcher.
Proof. intros name. simpl. by rewrite lookup_empty. Qed.

Lemma sorted_sound_addListener n l p d :
  sorted_sound d → sorted_sound (addListener n l p d).
Proof.
  intros Hd name. rewrite sorted_addListener, entries_addListener.
  case_decide as Hn; [subst; by rewrite lookup_insert_eq|].
  rewrite lookup_insert_ne by done. apply Hd.
Qed.

Lemma entries_removeListener_ne n l d name :
  n ≠ name → entries name (removeListener n l d) = entries name d.
Proof. intros Hne. unfold entries. by rewrite lookup_removeListener_ne. Qed.

Lemma sorted_sound_removeListener n l d :
  sorted_sound d → sorted_sound (removeListener n l d).
Proof.
  intros Hd name Hs.
  assert (sorted d !! name = Some true) as Hs0.
  { destruct (sorted_removeListener_lookup n l d name) as [<-|(-> & _ & Hn)];
      [done|congruence]. }
  destruct (decide (n = name)) as [<-|Hne].
  - rewrite entries_removeListener. eapply desc_sublist; [apply without_sublist|].
    by apply Hd.
  - rewrite entries_removeListener_ne by done. by apply Hd.
Qed.
End MoreRegistryFacts.

(** X1.  A lookup of a name sorts its array in place and touches nothing
    else: the listeners returned are those of the array afterwards, which
    holds the entries it held; entries of equal priority keep the
    order they had; where the cache was sound the array is now in
    descending order and the cache still sound; the flag of a known name
    is clean; every other name keeps its array and its flag. *)
Theorem lookup_sorts_in_place (n : string) (d : Dispatcher) :
  let d' := (getListenersOf n d).2 in
  (getListenersOf n d).1 = listener <$> entries n d' ∧
  entries n d' ≡ₚ entries n d ∧
  same_ties (entries n d') (entries n d) ∧
  (sorted_sound d → desc (entries n d') ∧ sorted_sound d') ∧
  (is_Some (listeners d !! n) → sorted d' !! n = Some true) ∧
  (∀ name, name ≠ n →
     listeners d' !! name = listeners d !! name ∧
     sorted d' !! name = sorted d !! name) ∧
  subscriberListeners d' = subscriberListeners d.
Proof.
  intros d'. unfold d'. split; [apply getListenersOf_result|].
  split; [apply entries_getListenersOf_perm|].
  split; [apply entries_getListenersOf_ties|].
  split; [|split; [apply sorted_getListenersOf_known|split]].
  - intros Hd. split; [|by apply sorted_sound_getListenersOf].
    destruct (listeners d !! n) as [es|] eqn:Hn.
    + apply (sorted_sound_getListenersOf n d Hd).
      apply sorted_getListenersOf_known. by rewrite Hn.
    + assert (entries n (getListenersOf n d).2 = []) as ->; [|constructor].
      rewrite getListenersOf_state, Hn. unfold entries. by rewrite Hn.
  - intros name Hne. by apply lookup_getListenersOf_ne.
  - apply subscriberListeners_getListenersOf.
Qed.

(** X2.  Looking a name up twice is looking it up once: the second
    lookup returns the same listeners and leaves the dispatcher as the
    first left it; the lookup of an unknown name returns the empty array
    and changes nothing. *)
Theorem lookup_idempotent (n : string) (d : Dispatcher) :
  getListenersOf n (getListenersOf n d).2 = getListenersOf n d ∧
  (listeners d !! n = None → getListenersOf n d = ([], d)).
Proof.
  split.
  - assert ((getListenersOf n (getListenersOf n d).2).2 = (getListenersOf n d).2)
      as H2.
    { rewrite (getListenersOf_state n (getListenersOf n d).2).
      destruct (listeners d !! n) as [es|] eqn:Hn.
      - rewrite sorted_getListenersOf_known by (by rewrite Hn).
        by destruct (listeners (getListenersOf n d).2 !! n).
      - by rewrite (proj2 (dom_getListenersOf n d n) Hn). }
    assert ((getListenersOf n (getListenersOf n d).2).1 = (getListenersOf n d).1)
      as H1.
    { by rewrite (getListenersOf_result n (getListenersOf n d).2), H2,
        <- getListenersOf_result. }
    destruct (getListenersOf n (getListenersOf n d).2), (getListenersOf n d).
    simpl in *. congruence.
  - intros Hn. unfold getListenersOf. by rewrite Hn.
Qed.

Section WholeRegistry.
Implicit Types (d : Dispatcher) (names : list string).

(** A lookup of [n] reads and writes the array and the flag of [n] only. *)
Lemma getListenersOf_ext n d1 d :
  listeners d1 !! n = listeners d !! n → sorted d1 !! n = sorted d !! n →
  (getListenersOf n d1).1 = (getListenersOf n d).1 ∧
  listeners (getListenersOf n d1).2 !! n = listeners (getListenersOf n d).2 !! n ∧
  sorted (getListenersOf n d1).2 !! n = sorted (getListenersOf n d).2 !! n.
Proof.
  intros Hl Hs. unfold getListenersOf. rewrite Hl, Hs.
  destruct (listeners d !! n) as [es|] eqn:Hn; simpl.
  2:{ by rewrite Hl, Hs, Hn. }
  destruct (sorted d !! n) as [[]|] eqn:Hsn; simpl.
  - by rewrite Hl, Hs, Hn, Hsn.
  - by rewrite !lookup_alter_eq, !lookup_insert_eq, Hl, Hn.
  - by rewrite !lookup_alter_eq, !lookup_insert_eq, Hl, Hn.
Qed.

Lemma foldl_lookup_spec names d name :
  NoDup names →
  let d' := foldl (λ d n, (getListenersOf n d).2) d names in
  (name ∈ names →
     listeners d' !! name = listeners (getListenersOf name d).2 !! name ∧
     sorted d' !! name = sorted (getListenersOf name d).2 !! name) ∧
  (name ∉ names →
     listeners d' !! name = listeners d !! name ∧
     sorted d' !! name = sorted d !! name).
Proof.
  intros Hnd. revert d. induction Hnd as [|n names Hn Hnd IH]; intros d; simpl.
  { split; [by intros ?%elem_of_nil|done]. }
  destruct (IH (getListenersOf n d).2) as [IHin IHout]. split.
  - intros [->|Hin]%elem_of_cons.
    + by apply IHout.
    + destruct (IHin Hin) as [-> ->].
      assert (n ≠ name) as Hne by (intros ->; done).
      destruct (lookup_getListenersOf_ne n d name Hne) as [Hl Hs].
      by destruct (getListenersOf_ext name _ d Hl Hs) as (_ & -> & ->).
  - intros Hout. apply not_elem_of_cons in Hout as [Hne Hout].
    destruct (IHout Hout) as [-> ->]. by apply lookup_getListenersOf_ne.
Qed.

Lemma collect_values depth acc d names m d' :
  "" ∉ names → NoDup names →
  foldl (collect (getListeners depth)) (Return acc, d) names = (Return m, d') →
  m = acc ++ ((λ name, (name, Arr (getListenersOf name d).1)) <$> names) ∧
  d' = foldl (λ d n, (getListenersOf n d).2) d names.
Proof.
  intros Hempty Hnd. revert acc d Hempty.
  induction Hnd as [|n names Hn Hnd IH]; intros acc d Hempty; simpl.
  { intros [= <- <-]. by rewrite app_nil_r. }
  apply not_elem_of_cons in Hempty as [Hne Hempty].
  rewrite getListeners_truthy by done. intros Hfold.
  apply IH in Hfold as [-> ->]; [|done]. split; [|done].
  rewrite <- app_assoc. simpl. do 2 f_equal.
  apply list_fmap_ext. intros i name Hi. f_equal. f_equal.
  assert (n ≠ name) as Hnn.
  { intros ->. apply Hn. by eapply list_elem_of_lookup_2. }
  destruct (lookup_getListenersOf_ne n d name Hnn) as [Hl Hs].
  by destruct (getListenersOf_ext name _ d Hl Hs) as (-> & _).
Qed.

(** What holds of a dispatcher before [getListeners] and is kept by
    every named lookup still holds after it, whichever branch it takes
    and however it ends. *)
Lemma getListeners_preserves (P : Dispatcher → Prop) :
  (∀ n d, P d → P (getListenersOf n d).2) →
  ∀ depth eventName d, P d → P (getListeners depth eventName d).2.
Proof.
  intros Hlookup.
  assert (∀ self, (∀ n d, P d → P (self (Some n) d).2) →
          ∀ names acc, P acc.2 → P (foldl (collect self) acc names).2) as Hfold.
  { intros self Hself names. induction names as [|n names IH]; intros acc Hacc;
      [done|].
    cbn [foldl]. apply IH. destruct acc as [[m|err] d0]; [|done]. simpl in *.
    specialize (Hself n d0 Hacc). by destruct (self (Some n) d0) as [[r|err] d1]. }
  induction depth as [|depth IH]; intros eventName d Hd; cbn [getListeners];
    destruct (truthy eventName) as [name|].
  - specialize (Hlookup name d Hd). by destruct (getListenersOf name d).
  - specialize (Hfold stack_overflow (λ n d0 H, H)
                  (map_to_list (listeners d)).*1 (Return [], d) Hd).
    by destruct (foldl (collect stack_overflow) _ _) as [[m|err] d'].
  - specialize (Hlookup name d Hd). by destruct (getListenersOf name d).
  - specialize (Hfold (getListeners depth) (λ n d0 H, IH (Some n) d0 H)
                  (map_to_list (listeners d)).*1 (Return [], d) Hd).
    by destruct (foldl (collect (getListeners depth)) _ _) as [[m|err] d'].
Qed.
End WholeRegistry.

(** X3.  When the empty name is not registered, [getListeners()] (and
    [getListeners("")]) returns a map with one key per registered name
    and, under each, the array [getListeners(name)] would have returned;
    it leaves every array and every flag as that lookup would have left
    them, so every registered name is sorted and clean afterwards. *)
Theorem getListeners_all (d : Dispatcher) (depth : nat) (eventName : option string) :
  truthy eventName = None →
  listeners d !! "" = None →
  ∃ m d', getListeners (S depth) eventName d = (Return (AllMap m), d') ∧
    NoDup m.*1 ∧
    (∀ name v, (name, v) ∈ m ↔
       is_Some (listeners d !! name) ∧ v = Arr (getListenersOf name d).1) ∧
    (∀ name,
       listeners d' !! name = listeners (getListenersOf name d).2 !! name ∧
       sorted d' !! name = sorted (getListenersOf name d).2 !! name) ∧
    (∀ name, is_Some (listeners d !! name) → sorted d' !! name = Some true).
Proof.
  intros Hf Hempty.
  destruct (getListeners_global depth eventName d Hf Hempty) as (m & d' & Hg).
  exists m, d'. split; [done|].
  cbn [getListeners] in Hg. rewrite Hf in Hg.
  set (names := (map_to_list (listeners d)).*1) in *.
  assert (NoDup names) as Hnd by apply NoDup_fst_map_to_list.
  assert (∀ name, name ∈ names ↔ is_Some (listeners d !! name)) as Hnames.
  { intros name. unfold names. rewrite list_elem_of_fmap. split.
    - intros ([n es] & -> & Hin). apply elem_of_map_to_list in Hin. by eexists.
    - intros [es Hes]. exists (name, es). split; [done|].
      by apply elem_of_map_to_list. }
  assert ("" ∉ names) as Hno.
  { intros [es Hes]%Hnames. congruence. }
  destruct (foldl (collect (getListeners depth)) (Return [], d) names)
    as [[m0|err] d0] eqn:Hfold; [|done].
  injection Hg as <- <-.
  apply collect_values in Hfold as [-> ->]; [|done..]. simpl.
  assert (∀ name,
    listeners (foldl (λ d n, (getListenersOf n d).2) d names) !! name
      = listeners (getListenersOf name d).2 !! name ∧
    sorted (foldl (λ d n, (getListenersOf n d).2) d names) !! name
      = sorted (getListenersOf name d).2 !! name) as Hstate.
  { intros name. destruct (foldl_lookup_spec names d name Hnd) as [Hin Hout].
    destruct (decide (name ∈ names)) as [H|H]; [by apply Hin|].
    destruct (Hout H) as [-> ->].
    assert (listeners d !! name = None) as Hnone.
    { destruct (listeners d !! name) eqn:Hn; [|done].
      exfalso. apply H, Hnames. by eexists. }
    unfold getListenersOf. by rewrite Hnone. }
  split; [|split; [|split; [done|]]].
  - rewrite <- list_fmap_compose. simpl. by rewrite list_fmap_id.
  - intros name v. rewrite list_elem_of_fmap. split.
    + intros (n & [= -> ->] & Hin). split; [by apply Hnames|done].
    + intros [Hin ->]. exists name. split; [done|by apply Hnames].
  - intros name Hin. destruct (Hstate name) as [_ ->].
    by apply sorted_getListenersOf_known.
Qed.

Section Reachable.
Implicit Types (d : Dispatcher) (st : Store).

Lemma sorted_sound_set_subscriberListeners m d :
  sorted_sound d → sorted_sound (set_subscriberListeners m d).
Proof. done. Qed.

Lemma sorted_sound_subscribe s acc entry :
  sorted_sound (dispatcher acc.2) →
  sorted_sound (dispatcher (subscribe s acc entry).2).
Proof.
  destruct acc as [[bl|err] st], entry as [n params]; simpl; [|done].
  intros Hd.
  destruct params as [m|m q]; destruct (has_method s m); simpl; try done;
    by apply sorted_sound_addListener.
Qed.

Lemma sorted_sound_addSubscriber s st :
  sorted_sound (dispatcher st) → sorted_sound (dispatcher (addSubscriber s st).2).
Proof.
  intros Hd. unfold addSubscriber.
  assert (∀ evs acc, sorted_sound (dispatcher acc.2) →
            sorted_sound (dispatcher (foldl (subscribe s) acc evs).2)) as Hfold.
  { induction evs as [|ev evs IH]; intros acc Hacc; [done|].
    cbn [foldl]. by apply IH, sorted_sound_subscribe. }
  specialize (Hfold (map_to_list (getSubscribedEvents s)) (Return [], st) Hd).
  by destruct (foldl (subscribe s) (Return [], st) _) as [[bl|err] st'].
Qed.

Lemma sorted_sound_removeSubscriber s d :
  sorted_sound d → sorted_sound (removeSubscriber s d).
Proof.
  intros Hd. unfold removeSubscriber.
  destruct (subscriberListeners d !! identity s) as [bl|]; [|done].
  apply sorted_sound_set_subscriberListeners.
  revert d Hd. induction bl as [|[n b] bl IH]; intros d Hd; [done|].
  cbn [foldl]. by apply IH, sorted_sound_removeListener.
Qed.

(** Every store a program can build is well formed and has a sound
    cache. *)
Lemma reachable_invariants st :
  reachable st → well_formed st ∧ sorted_sound (dispatcher st).
Proof.
  induction 1 as [|st _ [[Hne Hb] Hs]|st n l p _ [[Hne Hb] Hs] Hl
                 |st n l _ [[Hne Hb] Hs]|st depth eventName _ [[Hne Hb] Hs]
                 |st s _ [Hwf Hs]|st s _ [Hwf Hs]].
  - split; [split|]; [apply no_empty_array_new|apply listeners_below_new
                     |apply sorted_sound_new].
  - split; [split|]; simpl; [done| |done].
    by apply (listeners_below_mono (allocated st)); [lia|].
  - split; [split|]; simpl.
    + by apply no_empty_array_addListener.
    + by apply listeners_below_addListener.
    + by apply sorted_sound_addListener.
  - split; [split|]; simpl.
    + by apply no_empty_array_removeListener.
    + by apply listeners_below_removeListener.
    + by apply sorted_sound_removeListener.
  - split; [split|]; simpl.
    + by apply (getListeners_preserves no_empty_array);
        [apply no_empty_array_getListenersOf|].
    + by apply (getListeners_preserves (listeners_below (allocated st)));
        [intros ??; apply listeners_below_getListenersOf|].
    + by apply (getListeners_preserves sorted_sound);
        [apply sorted_sound_getListenersOf|].
  - split; [by apply well_formed_addSubscriber|by apply sorted_sound_addSubscriber].
  - split; [by apply well_formed_removeSubscriber
           |by apply sorted_sound_removeSubscriber].
Qed.

Lemma hasListeners_named name d :
  name ≠ "" → hasListeners (Some name) d = true ↔ entries name d ≠ [].
Proof.
  intros Hname. unfold hasListeners, entries. rewrite truthy_Some by done.
  destruct (listeners d !! name) as [[|x es]|]; simpl; split; done.
Qed.
End Reachable.

(** X4.  In every store a program can build - whatever registrations,
    removals, subscriptions and lookups came before - a lookup returns
    all the listeners of the name, in descending order of priority:
    removals leave the flag clean, and the array they leave is still
    sorted. *)
Theorem lookup_descending_always (st : Store) (n : string) :
  reachable st →
  let es := entries n (getListenersOf n (dispatcher st)).2 in
  (getListenersOf n (dispatcher st)).1 = listener <$> es ∧
  desc es ∧
  es ≡ₚ entries n (dispatcher st) ∧
  es = Array_sort byPriority (entries n (dispatcher st)).
Proof.
  intros [_ Hs]%reachable_invariants. cbv zeta.
  split; [apply getListenersOf_result|].
  assert (desc (entries n (getListenersOf n (dispatcher st)).2)) as Hdesc.
  { destruct (listeners (dispatcher st) !! n) as [es0|] eqn:Hn.
    - apply (sorted_sound_getListenersOf n _ Hs).
      apply sorted_getListenersOf_known. by rewrite Hn.
    - assert (entries n (getListenersOf n (dispatcher st)).2 = []) as ->;
        [|constructor].
      rewrite getListenersOf_state, Hn. unfold entries. by rewrite Hn. }
  split; [done|]. split; [apply entries_getListenersOf_perm|].
  apply desc_sort; [done|apply entries_getListenersOf_ties].
Qed.

(** X5.  In every store a program can build, a name is in the registry
    exactly when it has a listener: the global [hasListeners()] is true
    exactly when some name has one, and [hasListeners(name)], for a
    non-empty name, exactly when the name is a key of the registry. *)
Theorem hasListeners_exact (st : Store) :
  reachable st →
  (hasListeners None (dispatcher st) = true ↔
     ∃ name, entries name (dispatcher st) ≠ []) ∧
  (hasListeners None (dispatcher st) = false ↔ listeners (dispatcher st) = ∅) ∧
  (∀ name, name ≠ "" →
     (hasListeners (Some name) (dispatcher st) = true ↔
        is_Some (listeners (dispatcher st) !! name))).
Proof.
  intros [[Hne _] _]%reachable_invariants.
  set (d := dispatcher st) in *.
  assert (∀ name, entries name d ≠ [] ↔ is_Some (listeners d !! name)) as Hent.
  { intros name. unfold entries. destruct (listeners d !! name) as [es|] eqn:Hn;
      simpl.
    - split; [by eexists|]. intros _. by apply (Hne name).
    - split; [done|]. by intros [? [=]]. }
  assert (hasListeners None d = true ↔ size (listeners d) ≠ 0) as Hsize.
  { unfold hasListeners. simpl. rewrite Nat.ltb_lt. lia. }
  split; [|split].
  - rewrite Hsize, map_size_ne_0_lookup. split.
    + intros [name Hname]. exists name. by apply Hent.
    + intros [name Hname]. exists name. by apply Hent.
  - rewrite <- map_size_empty_iff. destruct (hasListeners None d) eqn:Hh.
    + split; [done|]. intros Hz. by apply Hsize in Hz.
    + split; [|done]. intros _. destruct (size (listeners d)) eqn:Hz; [done|].
      exfalso. assert (false = true); [|done]. apply Hsize. lia.
  - intros name Hname. rewrite hasListeners_named by done. apply Hent.
Qed.

Section AddRemove.
Implicit Types (d : Dispatcher) (es : list ListenerEntry) (l : Listener).

Lemma getListenerPriority_Some n l d :
  is_Some (getListenerPriority n l d) ↔ ∃ x, x ∈ entries n d ∧ listener x = l.
Proof.
  unfold getListenerPriority, entries.
  destruct (listeners d !! n) as [es|]; simpl.
  - destruct (find _ es) as [found|] eqn:Hf.
    + apply find_Some in Hf as (i & Hi & Hp%bool_decide_eq_true & _).
      split; [|by eexists]. intros _. exists found.
      split; [by eapply list_elem_of_lookup_2|done].
    + split; [by intros [? [=]]|]. intros (x & Hx & Hl).
      rewrite find_None in Hf. specialize (Hf x Hx).
      by apply bool_decide_eq_false in Hf.
  - split; [by intros [? [=]]|]. by intros (x & Hx%elem_of_nil & _).
Qed.

Lemma getListenerPriority_addListener n l p d :
  getListenerPriority n l (addListener n l p d)
  = Some (default p (getListenerPriority n l d)).
Proof.
  unfold getListenerPriority. rewrite listeners_addListener, lookup_insert_eq.
  rewrite find_snoc. unfold entries.
  destruct (listeners d !! n) as [es|]; simpl.
  - destruct (find _ es); [done|]. simpl. by rewrite bool_decide_eq_true_2.
  - by rewrite bool_decide_eq_true_2.
Qed.

Lemma findIndex_app_l {A} (p : A → bool) (xs ys : list A) i :
  findIndex p xs = Some i → findIndex p (xs ++ ys) = Some i.
Proof.
  revert i. induction xs as [|x xs IH]; intros i; simpl; [done|].
  destruct (p x); [done|]. destruct (findIndex p xs) as [j|]; [|done].
  simpl. intros [= <-]. by rewrite (IH j).
Qed.

Lemma without_app_l l es es' :
  (∃ x, x ∈ es ∧ listener x = l) → without l (es ++ es') = without l es ++ es'.
Proof.
  intros (x & Hx & Hl). unfold without.
  destruct (findIndex (λ item, bool_decide (listener item = l)) es) as [i|] eqn:Hi.
  - rewrite (findIndex_app_l _ _ _ _ Hi). unfold splice1.
    apply findIndex_Some in Hi as (y & Hy & _).
    apply lookup_lt_Some in Hy. clear -Hy. revert i Hy.
    induction es as [|z es IH]; intros i Hi; simpl in *; [lia|].
    destruct i as [|i]; simpl; [done|]. f_equal. apply IH. lia.
  - rewrite findIndex_None in Hi. specialize (Hi x Hx).
    by apply bool_decide_eq_false in Hi.
Qed.

Lemma others_cons l x es :
  others l (x :: es) = if decide (listener x = l) then others l es else x :: others l es.
Proof. unfold others. rewrite filter_cons. by repeat case_decide. Qed.

Lemma without_others l es : others l (without l es) = others l es.
Proof.
  induction es as [|x es IH]; [done|].
  rewrite without_cons, !others_cons. case_decide; [done|].
  rewrite others_cons, decide_False by done. by rewrite IH.
Qed.

Lemma without_length l es :
  (∃ x, x ∈ es ∧ listener x = l) → S (length (without l es)) = length es.
Proof.
  induction es as [|x es IH]; intros (y & Hy & Hl).
  { by apply elem_of_nil in Hy. }
  rewrite without_cons. case_decide as Hx; [done|]. simpl. f_equal.
  apply IH. exists y. split; [|done].
  apply elem_of_cons in Hy as [->|Hy]; done.
Qed.

Lemma lookup_removeListener_other n l d name :
  n ≠ name →
  listeners (removeListener n l d) !! name = listeners d !! name ∧
  sorted (removeListener n l d) !! name = sorted d !! name.
Proof.
  intros Hne. split; [by apply lookup_removeListener_ne|].
  destruct (sorted_removeListener_lookup n l d name) as [?|(-> & _)]; done.
Qed.
End AddRemove.

(** X6.  Registering a callback that the name does not have yet and
    removing it again gives back the registry of listeners, whether the
    name existed before or was created by the registration; only the flag
    of the name is not restored: a name that stays is left dirty. *)
Theorem add_then_remove_listener (n : string) (l : Listener) (p : Z)
    (d : Dispatcher) :
  no_empty_array d →
  (∀ x, x ∈ entries n d → listener x ≠ l) →
  let d' := removeListener n l (addListener n l p d) in
  listeners d' = listeners d ∧
  subscriberListeners d' = subscriberListeners d ∧
  (∀ name, name ≠ n → sorted d' !! name = sorted d !! name) ∧
  sorted d' !! n = (if decide (entries n d = []) then None else Some false).
Proof.
  intros Hne Hfresh d'. unfold d'.
  assert (listeners (addListener n l p d) !! n = Some (entries n d ++ [Entry l p]))
    as Hadd by (by rewrite listeners_addListener, lookup_insert_eq).
  split; [|split; [|split]].
  - rewrite listeners_removeListener, Hadd, without_snoc by done.
    rewrite listeners_addListener.
    destruct (decide (entries n d = [])) as [Hnil|Hnil].
    + rewrite delete_insert_eq. apply delete_id.
      unfold entries in Hnil. destruct (listeners d !! n) as [es|] eqn:Hn; [|done].
      simpl in Hnil. subst es. by destruct (Hne n [] Hn).
    + rewrite insert_insert_eq. apply insert_id.
      unfold entries in *. by destruct (listeners d !! n) as [es|].
  - by rewrite subscriberListeners_removeListener.
  - intros name Hname.
    destruct (lookup_removeListener_other n l (addListener n l p d) name)
      as [_ ->]; [done|].
    by rewrite sorted_addListener, lookup_insert_ne.
  - rewrite sorted_removeListener, Hadd, without_snoc by done.
    case_decide.
    + by rewrite lookup_delete_eq.
    + by rewrite sorted_addListener, lookup_insert_eq.
Qed.

(** X7.  A callback can be registered twice under a name.  The second
    registration appends an entry of its own; [getListenerPriority] goes
    on reporting the priority it reported before; and one
    [removeListener] takes away the first entry of the callback only, so
    that the callback is still registered afterwards. *)
Theorem duplicate_registration (n : string) (l : Listener) (p : Z)
    (d : Dispatcher) :
  is_Some (getListenerPriority n l d) →
  let d1 := addListener n l p d in
  entries n d1 = entries n d ++ [Entry l p] ∧
  getListenerPriority n l d1 = getListenerPriority n l d ∧
  entries n (removeListener n l d1) = without l (entries n d) ++ [Entry l p] ∧
  is_Some (getListenerPriority n l (removeListener n l d1)).
Proof.
  intros Hreg d1. unfold d1.
  assert (entries n (addListener n l p d) = entries n d ++ [Entry l p]) as Hent.
  { by rewrite entries_addListener, decide_True. }
  assert (entries n (removeListener n l (addListener n l p d))
          = without l (entries n d) ++ [Entry l p]) as Hrem.
  { rewrite entries_removeListener, Hent. apply without_app_l.
    by apply getListenerPriority_Some. }
  split; [done|]. split; [|split; [done|]].
  - rewrite getListenerPriority_addListener. by destruct Hreg as [q ->].
  - apply getListenerPriority_Some. exists (Entry l p). split; [|done].
    rewrite Hrem. apply elem_of_app. right. left.
Qed.

Lemma without_first l pre x post :
  listener x = l → (∀ y, y ∈ pre → listener y ≠ l) →
  without l (pre ++ x :: post) = pre ++ post.
Proof.
  intros Hx. induction pre as [|z pre IH]; intros Hpre; simpl.
  - by rewrite without_cons, decide_True.
  - rewrite without_cons, decide_False by (apply Hpre; left).
    f_equal. apply IH. intros y Hy. apply Hpre. by right.
Qed.

(** X8.  [removeListener] takes exactly one entry out of the array of
    the name, the first one of the callback: when the array is [pre],
    then an entry of the callback, then [post], and no entry of [pre] has
    the callback, what is left is [pre] followed by [post], later entries
    of the callback included.  So the array loses one element when the
    callback is registered, the entries of the other callbacks stay, in
    their order and with their priorities, and no other name is
    touched. *)
Theorem removeListener_removes_one (n : string) (l : Listener) (d : Dispatcher) :
  let d' := removeListener n l d in
  (∀ pre x post,
     entries n d = pre ++ x :: post → listener x = l →
     (∀ y, y ∈ pre → listener y ≠ l) →
     entries n d' = pre ++ post) ∧
  (is_Some (getListenerPriority n l d) →
     ∃ pre x post,
       entries n d = pre ++ x :: post ∧ listener x = l ∧
       (∀ y, y ∈ pre → listener y ≠ l)) ∧
  entries n d' `sublist_of` entries n d ∧
  others l (entries n d') = others l (entries n d) ∧
  (is_Some (getListenerPriority n l d) →
     S (length (entries n d')) = length (entries n d)) ∧
  (∀ name, name ≠ n →
     listeners d' !! name = listeners d !! name ∧
     sorted d' !! name = sorted d !! name) ∧
  subscriberListeners d' = subscriberListeners d.
Proof.
  intros d'. unfold d'. rewrite entries_removeListener.
  split.
  { intros pre x post -> Hx Hpre. by apply without_first. }
  split.
  { intros Hreg. apply getListenerPriority_Some in Hreg as (x & Hx & Hl).
    revert Hx. generalize (entries n d). intros es.
    induction es as [|z es IH]; intros Hx; [by apply elem_of_nil in Hx|].
    destruct (decide (listener z = l)) as [Hz|Hz].
    - exists [], z, es. repeat split; [done|]. intros y Hy.
      by apply elem_of_nil in Hy.
    - apply elem_of_cons in Hx as [->|Hx]; [done|].
      destruct (IH Hx) as (pre & x' & post & -> & Hx' & Hpre).
      exists (z :: pre), x', post. repeat split; [done|].
      intros y [->|Hy]%elem_of_cons; auto. }
  split; [apply without_sublist|]. split; [apply without_others|].
  split; [|split].
  - intros Hreg. apply without_length. by apply getListenerPriority_Some.
  - intros name Hname. by apply lookup_removeListener_other.
  - apply subscriberListeners_removeListener.
Qed.

(** X9.  After [addListener(name, l, p)] a lookup of the name returns
    [l] among one listener more than the name had, [hasListeners] is true
    for the name (when it is not empty) and globally, and no other name
    has changed. *)
Theorem addListener_then_lookup (n : string) (l : Listener) (p : Z)
    (d : Dispatcher) :
  let d1 := addListener n l p d in
  l ∈ (getListenersOf n d1).1 ∧
  length (getListenersOf n d1).1 = S (length (entries n d)) ∧
  (n ≠ "" → hasListeners (Some n) d1 = true) ∧
  hasListeners None d1 = true ∧
  (∀ name, name ≠ n →
     listeners d1 !! name = listeners d !! name ∧
     sorted d1 !! name = sorted d !! name) ∧
  subscriberListeners d1 = subscriberListeners d.
Proof.
  intros d1. unfold d1.
  assert (entries n (addListener n l p d) = entries n d ++ [Entry l p]) as Hent.
  { by rewrite entries_addListener, decide_True. }
  assert (entries n (getListenersOf n (addListener n l p d)).2
          ≡ₚ entries n d ++ [Entry l p]) as Hperm.
  { by rewrite entries_getListenersOf_perm, Hent. }
  split; [|split; [|split; [|split; [|split]]]].
  - rewrite getListenersOf_result. apply list_elem_of_fmap.
    exists (Entry l p). split; [done|]. rewrite Hperm.
    apply elem_of_app. right. left.
  - rewrite getListenersOf_result, length_fmap, Hperm, length_app. simpl. lia.
  - intros Hn. apply hasListeners_named; [done|]. rewrite Hent.
    by destruct (entries n d).
  - apply (hasListeners_falsy_key None n); [done|].
    rewrite listeners_addListener, lookup_insert_eq. by eexists.
  - intros name Hname. rewrite listeners_addListener, sorted_addListener.
    by rewrite !lookup_insert_ne.
  - done.
Qed.

Section MoreSubscriberFacts.
Implicit Types (d : Dispatcher) (st : Store) (s : Subscriber).
Implicit Types (bl : list (string * Listener)) (evs : list (string * Params)).

Lemma subscribe_eq s bl st n params :
  subscribe s (Return bl, st) (n, params)
  = if has_method s (method_of params) then
      (Return (bl ++ [(n, allocated st)]),
       {| dispatcher :=
            addListener n (allocated st) (priority_of params) (dispatcher st);
          allocated := S (allocated st) |})
    else (Throw TypeError, st).
Proof. by destruct params. Qed.

(** The loop of [addSubscriber] runs to its end exactly when every
    declared method exists; otherwise it ends in a [TypeError] and has
    not touched the record of bindings. *)
Lemma subscribe_loop_completion s evs bl st :
  let r := foldl (subscribe s) (Return bl, st) evs in
  (Forall (λ ev, has_method s (method_of ev.2) = true) evs →
     ∃ bl', r.1 = Return bl') ∧
  (¬ Forall (λ ev, has_method s (method_of ev.2) = true) evs →
     r.1 = Throw TypeError) ∧
  subscriberListeners (dispatcher r.2) = subscriberListeners (dispatcher st).
Proof.
  revert bl st. induction evs as [|[n params] evs IH]; intros bl st; cbn [foldl].
  { split; [eauto|]. split; [|done]. intros H. destruct H. constructor. }
  rewrite subscribe_eq. destruct (has_method s (method_of params)) eqn:Hm.
  - destruct (IH (bl ++ [(n, allocated st)])
                {| dispatcher := addListener n (allocated st) (priority_of params)
                                   (dispatcher st);
                   allocated := S (allocated st) |}) as (Hok & Hko & Hsub).
    split; [|split].
    + intros [_ Hall]%Forall_cons. by apply Hok.
    + intros Hnot. apply Hko. intros Hall. apply Hnot. by constructor.
    + by rewrite Hsub.
  - rewrite subscribe_throw. simpl. split; [|done].
    intros [Hbad _]%Forall_cons. simpl in Hbad. congruence.
Qed.

Lemma subscribe_loop_entries s evs bl st bl' st' :
  NoDup evs.*1 →
  foldl (subscribe s) (Return bl, st) evs = (Return bl', st') →
  allocated st' = allocated st + length evs ∧
  bl' = bl ++ imap (λ i ev, (ev.1, allocated st + i)) evs ∧
  (∀ name, name ∉ evs.*1 →
     listeners (dispatcher st') !! name = listeners (dispatcher st) !! name) ∧
  (∀ i name params, evs !! i = Some (name, params) →
     entries name (dispatcher st')
     = entries name (dispatcher st)
       ++ [Entry (allocated st + i) (priority_of params)]).
Proof.
  revert bl st. induction evs as [|[n params] evs IH]; intros bl st Hnd;
    cbn [foldl].
  { intros [= <- <-]. simpl. rewrite app_nil_r.
    split; [lia|]. split; [done|]. split; [done|]. by intros i name params. }
  rewrite subscribe_eq. destruct (has_method s (method_of params));
    [|by rewrite subscribe_throw].
  rewrite fmap_cons in Hnd. apply NoDup_cons in Hnd as [Hn Hnd].
  intros Hfold. apply IH in Hfold as (Halloc & -> & Hout & Hin); [|done].
  cbn [allocated dispatcher length fmap list_fmap] in *.
  split; [lia|]. split; [|split].
  - rewrite <- app_assoc. cbn [imap app]. do 2 f_equal; [f_equal; simpl; lia|].
    apply imap_ext. intros i ev _. simpl. f_equal. lia.
  - intros name [Hne Hname]%not_elem_of_cons. rewrite Hout by done.
    by rewrite listeners_addListener, lookup_insert_ne.
  - intros [|i] name params'; cbn [lookup list_lookup].
    + intros [= <- <-]. unfold entries at 1. rewrite Hout by done.
      rewrite listeners_addListener, lookup_insert_eq. cbn [default id].
      by rewrite Nat.add_0_r.
    + intros Hi. rewrite (Hin i name params' Hi).
      assert (n ≠ name) as Hne.
      { intros ->. apply Hn. apply list_elem_of_fmap. exists (name, params').
        split; [done|]. by eapply list_elem_of_lookup_2. }
      rewrite entries_addListener, decide_False by done.
      by rewrite Nat.add_succ_comm.
Qed.

(** The composition behind the symmetry of subscribers, for any store. *)
Lemma add_remove_subscriber_listeners s st st1 :
  well_formed st → addSubscriber s st = (Return (), st1) →
  listeners (removeSubscriber s (dispatcher st1)) = listeners (dispatcher st) ∧
  subscriberListeners (removeSubscriber s (dispatcher st1))
  = delete (identity s) (subscriberListeners (dispatcher st)).
Proof.
  intros [Hne Hbelow] Hadd. unfold addSubscriber in Hadd.
  destruct (foldl (subscribe s) (Return [], st) (map_to_list (getSubscribedEvents s)))
    as [[bl|err] st'] eqn:Hfold; [|done].
  injection Hadd as <-.
  destruct (subscribe_loop s (dispatcher st) (allocated st)
              (map_to_list (getSubscribedEvents s)) [] st bl st')
    as (Hkeys & Hpend & Hsub); [done|done|apply pending_start| |done|].
  { simpl. apply NoDup_fst_map_to_list. }
  unfold removeSubscriber. simpl. rewrite lookup_insert_eq. simpl. split.
  - apply pending_foldl_removeListener; [done|].
    destruct Hpend as (? & ? & ?). by split.
  - rewrite subscriberListeners_foldl_removeListener. simpl.
    by rewrite delete_insert_eq, Hsub.
Qed.

Lemma addSubscriber_registers_aux s st st1 :
  addSubscriber s st = (Return (), st1) →
  ∀ name params, getSubscribedEvents s !! name = Some params →
    ∃ b, entries name (dispatcher st1)
         = entries name (dispatcher st) ++ [Entry b (priority_of params)].
Proof.
  unfold addSubscriber.
  destruct (foldl (subscribe s) (Return [], st) (map_to_list (getSubscribedEvents s)))
    as [[bl|err] st'] eqn:Hfold; [|done].
  intros [= <-] name params Hn. simpl.
  apply subscribe_loop_entries in Hfold as (_ & _ & _ & Hin);
    [|apply NoDup_fst_map_to_list].
  apply elem_of_map_to_list in Hn. apply list_elem_of_lookup in Hn as [i Hi].
  exists (allocated st + i). by apply Hin.
Qed.

Lemma entries_foldl_removeListener bl d name :
  entries name (foldl (λ d '(n, l), removeListener n l d) d bl)
  `sublist_of` entries name d.
Proof.
  revert d. induction bl as [|[n b] bl IH]; intros d; simpl; [done|].
  etrans; [apply IH|]. destruct (decide (n = name)) as [->|Hne].
  - rewrite entries_removeListener. apply without_sublist.
  - by rewrite entries_removeListener_ne.
Qed.
End MoreSubscriberFacts.

(** X10.  [addSubscriber] returns exactly when every method the
    subscriber declares exists.  When one is missing it ends in a
    [TypeError] without recording any binding for the subscriber, so a
    [removeSubscriber] for a subscriber that had none changes nothing:
    the listeners registered before the failure stay. *)
Theorem addSubscriber_completion (s : Subscriber) (st : Store) :
  let r := addSubscriber s st in
  (r.1 = Return () ↔
     ∀ name params, getSubscribedEvents s !! name = Some params →
       has_method s (method_of params) = true) ∧
  (r.1 ≠ Return () →
     r.1 = Throw TypeError ∧
     subscriberListeners (dispatcher r.2) = subscriberListeners (dispatcher st) ∧
     (subscriberListeners (dispatcher st) !! identity s = None →
        removeSubscriber s (dispatcher r.2) = dispatcher r.2)).
Proof.
  cbv zeta. unfold addSubscriber.
  destruct (subscribe_loop_completion s (map_to_list (getSubscribedEvents s)) [] st)
    as (Hok & Hko & Hsub).
  assert (Forall (λ ev, has_method s (method_of ev.2) = true)
            (map_to_list (getSubscribedEvents s)) ↔
          ∀ name params, getSubscribedEvents s !! name = Some params →
            has_method s (method_of params) = true) as Hall.
  { rewrite Forall_forall. split.
    - intros H name params Hn. apply (H (name, params)).
      by apply elem_of_map_to_list.
    - intros H [name params] Hin%elem_of_map_to_list. by apply (H name params). }
  destruct (foldl (subscribe s) (Return [], st) (map_to_list (getSubscribedEvents s)))
    as [[bl|err] st'] eqn:Hfold; simpl in *.
  - split; [|done]. split; [|done]. intros _. apply Hall.
    destruct (decide (Forall (λ ev, has_method s (method_of ev.2) = true)
                        (map_to_list (getSubscribedEvents s)))) as [H|H]; [done|].
    by apply Hko in H.
  - split.
    + split; [done|]. intros H%Hall. by destruct (Hok H).
    + intros _.
      assert (err = TypeError) as ->.
      { destruct (decide (Forall (λ ev, has_method s (method_of ev.2) = true)
                            (map_to_list (getSubscribedEvents s)))) as [H|H].
        - by destruct (Hok H).
        - apply Hko in H. congruence. }
      split; [done|]. split; [done|]. intros Hnone.
      unfold removeSubscriber. by rewrite Hsub, Hnone.
Qed.

(** X11.  When [addSubscriber] returns, every declared event has got
    exactly one new entry, at the end of the array of its name, for a
    function created by the call and with the declared priority ([0] for
    a bare method name or a descriptor without priority); the names the
    subscriber does not declare are as they were, and the call has
    created one function per declared event. *)
Theorem addSubscriber_registers (s : Subscriber) (st st1 : Store) :
  addSubscriber s st = (Return (), st1) →
  allocated st1 = allocated st + size (getSubscribedEvents s) ∧
  (∀ name params, getSubscribedEvents s !! name = Some params →
     ∃ b, allocated st ≤ b < allocated st1 ∧
       entries name (dispatcher st1)
       = entries name (dispatcher st) ++ [Entry b (priority_of params)]) ∧
  (∀ name, getSubscribedEvents s !! name = None →
     listeners (dispatcher st1) !! name = listeners (dispatcher st) !! name) ∧
  is_Some (subscriberListeners (dispatcher st1) !! identity s).
Proof.
  unfold addSubscriber.
  destruct (foldl (subscribe s) (Return [], st) (map_to_list (getSubscribedEvents s)))
    as [[bl|err] st'] eqn:Hfold; [|done].
  intros [= <-]. simpl.
  apply subscribe_loop_entries in Hfold as (Halloc & _ & Hout & Hin);
    [|apply NoDup_fst_map_to_list].
  rewrite length_map_to_list in Halloc.
  split; [done|]. split; [|split].
  - intros name params Hn. apply elem_of_map_to_list in Hn.
    apply list_elem_of_lookup in Hn as [i Hi].
    exists (allocated st + i). split.
    + apply lookup_lt_Some in Hi. rewrite length_map_to_list in Hi. lia.
    + by apply Hin.
  - intros name Hn. apply Hout. intros ([n params] & -> & Hin')%list_elem_of_fmap.
    apply elem_of_map_to_list in Hin'. simpl in Hn. congruence.
  - rewrite lookup_insert_eq. by eexists.
Qed.

(** X12.  Adding a subscriber twice overwrites its record of bindings:
    a [removeSubscriber] then takes away the listeners of the second call
    only.  Those of the first call are still registered, and no further
    [removeSubscriber] can reach them. *)
Theorem addSubscriber_twice (s : Subscriber) (st st1 st2 : Store) :
  well_formed st →
  addSubscriber s st = (Return (), st1) →
  addSubscriber s st1 = (Return (), st2) →
  let d3 := removeSubscriber s (dispatcher st2) in
  listeners d3 = listeners (dispatcher st1) ∧
  (∀ name, is_Some (getSubscribedEvents s !! name) →
     length (entries name d3) = S (length (entries name (dispatcher st)))) ∧
  subscriberListeners d3 !! identity s = None ∧
  removeSubscriber s d3 = d3.
Proof.
  intros Hwf Hadd1 Hadd2 d3.
  pose proof (well_formed_addSubscriber s st Hwf) as Hwf1.
  rewrite Hadd1 in Hwf1. simpl in Hwf1.
  destruct (add_remove_subscriber_listeners s st1 st2 Hwf1 Hadd2) as [Hl Hsub].
  fold d3 in Hl, Hsub.
  assert (subscriberListeners d3 !! identity s = None) as Hnone.
  { by rewrite Hsub, lookup_delete_eq. }
  split; [done|]. split; [|split; [done|]].
  - intros name [params Hn]. unfold entries at 1. rewrite Hl.
    fold (entries name (dispatcher st1)).
    destruct (addSubscriber_registers_aux s st st1 Hadd1 name params Hn)
      as (b & ->).
    rewrite length_app. simpl. lia.
  - unfold removeSubscriber. by rewrite Hnone.
Qed.

(** X13.  [removeSubscriber] forgets the subscriber and nothing else: it
    deletes the record of that subscriber only, never adds an entry to an
    array, does nothing for a subscriber that has no record, and does
    nothing when called again. *)
Theorem removeSubscriber_forgets (s : Subscriber) (d : Dispatcher) :
  let d' := removeSubscriber s d in
  subscriberListeners d' = delete (identity s) (subscriberListeners d) ∧
  (∀ name, entries name d' `sublist_of` entries name d) ∧
  (subscriberListeners d !! identity s = None → d' = d) ∧
  removeSubscriber s d' = d'.
Proof.
  intros d'. unfold d'.
  assert (subscriberListeners (removeSubscriber s d)
          = delete (identity s) (subscriberListeners d)) as Hsub.
  { unfold removeSubscriber.
    destruct (subscriberListeners d !! identity s) as [bl|] eqn:Hs; simpl.
    - by rewrite subscriberListeners_foldl_removeListener.
    - symmetry. by apply delete_id. }
  split; [done|]. split; [|split].
  - intros name. unfold removeSubscriber.
    destruct (subscriberListeners d !! identity s) as [bl|]; [|done].
    apply (entries_foldl_removeListener bl d name).
  - intros Hnone. unfold removeSubscriber. by rewrite Hnone.
  - unfold removeSubscriber at 1. by rewrite Hsub, lookup_delete_eq.
Qed.

Section MoreDispatchFacts.
Context {Heap Event : Type}.
Variable constructor_name : Event → string.
Variable isStoppableEvent : Event → bool.
Variable isPropagationStopped : Event → Heap → bool.
Variable call : Listener → Event → World Heap → Completion () * World Heap.

Abbreviation loop := (doDispatch isStoppableEvent isPropagationStopped call).
Abbreviation run := (dispatch constructor_name isStoppableEvent isPropagationStopped call).
Abbreviation stopped e w := (isStoppableEvent e && isPropagationStopped e (heap w)).

(** The console after the loop of the Node and browser classes, when the
    listeners themselves leave the console alone. *)
Lemma doDispatch_console impl fs name e (w : World Heap) tr c w' :
  impl ≠ Simple →
  (∀ f e0 w0, console (call f e0 w0).2 = console w0) →
  loop impl (Fn <$> fs) name e w = (tr, c, w') →
  console w' = console w ++ reported call name e w tr.
Proof.
  intros Himpl Hquiet. revert w tr c w'.
  induction fs as [|f fs IH]; intros w tr c w'; simpl.
  { destruct impl; [done|..]; intros [= <- <- <-]; by rewrite app_nil_r. }
  destruct (stopped e w).
  { destruct impl; [done|..]; intros [= <- <- <-]; by rewrite app_nil_r. }
  pose proof (Hquiet f e w) as Hq.
  destruct (call f e w) as [[[]|err] w1] eqn:Hcall; simpl in Hq.
  - match goal with |- context [loop impl ?its name e w1] =>
      destruct (loop impl its name e w1) as [[tr2 c2] w2] eqn:Hl end.
    intros Heq.
    assert (tr = (f, w1) :: tr2 ∧ w' = w2) as [-> ->]
      by (destruct impl; by inversion Heq).
    simpl. rewrite Hcall. simpl. rewrite (IH _ _ _ _ Hl). by rewrite Hq.
  - destruct impl; [done|..];
      match goal with |- context [loop ?i ?its name e ?w0] =>
        destruct (loop i its name e w0) as [[tr2 c2] w2] eqn:Hl end;
      intros [= <- <- <-]; simpl; rewrite Hcall; simpl;
      rewrite (IH _ _ _ _ Hl); simpl; rewrite Hq, <- app_assoc; done.
Qed.

(** The console after the loop of [SimpleEventDispatcher]. *)
Lemma doDispatch_console_simple fs name e (w : World Heap) tr c w' :
  (∀ f e0 w0, console (call f e0 w0).2 = console w0) →
  loop Simple (Fn <$> fs) name e w = (tr, c, w') →
  console w' = console w ++ match c with Return _ => [Log name] | Throw _ => [] end.
Proof.
  intros Hquiet. revert w tr c w'.
  induction fs as [|f fs IH]; intros w tr c w'; simpl.
  { by intros [= <- <- <-]. }
  destruct (stopped e w); [by intros [= <- <- <-]|].
  pose proof (Hquiet f e w) as Hq.
  destruct (call f e w) as [[[]|err] w1] eqn:Hcall; simpl in Hq.
  - match goal with |- context [loop Simple ?its name e w1] =>
      destruct (loop Simple its name e w1) as [[tr2 c2] w2] eqn:Hl end.
    intros [= <- <- <-]. rewrite (IH _ _ _ _ Hl). by rewrite Hq.
  - intros [= <- <- <-]. by rewrite app_nil_r.
Qed.

Lemma reported_length name e (w : World Heap) tr :
  length (reported call name e w tr) ≤ length tr.
Proof.
  revert w. induction tr as [|[f w1] tr IH]; intros w; simpl; [done|].
  destruct ((call f e w).1); simpl.
  - specialize (IH w1). lia.
  - specialize (IH (console_log (LogError name err) w1)). lia.
Qed.



(** X16.  When the listeners leave the console alone, a dispatch to a
    non-empty name writes to it as follows.  The Node and browser classes
    write one [console.error] for every invocation that threw, in order,
    and nothing else.  [SimpleEventDispatcher] writes the event name once
    when the name has listeners and the loop completes, and nothing when a
    listener throws. *)
Theorem dispatch_console impl depth e eventName (w : World Heap) :
  default (constructor_name e) eventName ≠ "" →
  (∀ f e0 w0, console (call f e0 w0).2 = console w0) →
  let name := default (constructor_name e) eventName in
  let r := run impl depth e eventName w in
  (impl ≠ Simple →
     console r.2
     = console w
       ++ reported call name e (set_disp (getListenersOf name (disp w)).2 w) r.1.1
     ∧ length (reported call name e
                 (set_disp (getListenersOf name (disp w)).2 w) r.1.1)
       ≤ length r.1.1) ∧
  (impl = Simple →
     console r.2
     = console w
       ++ (if hasListeners (Some name) (disp w)
           then match r.1.2 with Return _ => [Log name] | Throw _ => [] end
           else [])).
Proof.
  intros Hname Hquiet. cbv zeta.
  destruct (run impl depth e eventName w) as [[tr c] w'] eqn:Hrun. simpl.
  apply dispatch_inv in Hrun
    as [(err & Herr & -> & -> & ->)
       |[_ [(Hhas & -> & _ & ->)|[(_ & err & d & Hg & _)
                                 |(Hhas & r & d & c0 & Hget & Hloop & ->)]]]].
  - split; [intros _; simpl; by rewrite app_nil_r|].
    intros ->. done.
  - rewrite Hhas. simpl. by rewrite app_nil_r.
  - by rewrite getListeners_truthy in Hg.
  - rewrite getListeners_truthy in Hget by done. injection Hget as <- <-.
    rewrite Hhas. simpl in Hloop. split.
    + intros Himpl. split; [|apply reported_length].
      by rewrite (doDispatch_console _ _ _ _ _ _ _ _ Himpl Hquiet Hloop).
    + intros ->. rewrite (doDispatch_console_simple _ _ _ _ _ _ _ Hquiet Hloop).
      by destruct c0.
Qed.
End MoreDispatchFacts.

(** X17.  The flag of a [BaseEvent] is set by [stopPropagation] and by
    nothing else, and nothing clears it: after any sequence of calls of
    its methods the event is stopped exactly when it was stopped before
    or [stopPropagation] is among the calls. *)
Theorem baseEvent_stop_is_final (ev : BaseEvent.t) (ms : list BaseEventMethod) :
  BaseEvent.isPropagationStopped (foldl call_method ev ms)
  = BaseEvent.isPropagationStopped ev || bool_decide (CallStopPropagation ∈ ms).
Proof.
  revert ev. induction ms as [|m ms IH]; intros ev; cbn [foldl].
  { rewrite bool_decide_eq_false_2 by apply not_elem_of_nil.
    by rewrite orb_false_r. }
  rewrite IH. destruct m; cbn [call_method].
  - f_equal. apply bool_decide_ext. rewrite elem_of_cons.
    split; [by right|]. by intros [[=]|].
  - rewrite (bool_decide_eq_true_2 (CallStopPropagation ∈ _ :: _)) by left.
    by rewrite orb_true_r.
Qed.

Section QueriesAfterLookup.
Implicit Types (d : Dispatcher) (es : list ListenerEntry) (l : Listener).

Lemma desc_lookup es i j x y :
  desc es → es !! i = Some x → es !! j = Some y → i < j →
  (priority y ≤ priority x)%Z.
Proof.
  unfold desc. intros Hs. revert i j.
  induction Hs as [|z es Hs IH Hz]; intros i j Hi Hj Hij; [done|].
  destruct j as [|j]; [lia|]. simpl in Hj. destruct i as [|i]; simpl in Hi.
  - injection Hi as ->. rewrite Forall_forall in Hz. apply Hz.
    by eapply list_elem_of_lookup_2.
  - apply (IH i j); [done..|lia].
Qed.

Lemma size_listeners_getListenersOf n d :
  size (listeners (getListenersOf n d).2) = size (listeners d).
Proof.
  rewrite getListenersOf_state. destruct (listeners d !! n); [|done].
  destruct (sorted d !! n) as [[]|]; [done|..];
    by rewrite listeners_sortListeners, <- !(size_dom (D := gset string)),
         dom_alter_L.
Qed.

Lemma hasListeners_getListenersOf n d eventName :
  hasListeners eventName (getListenersOf n d).2 = hasListeners eventName d.
Proof.
  unfold hasListeners. destruct (truthy eventName) as [name|].
  - pose proof (entries_getListenersOf_perm n d name) as Hperm.
    apply Permutation_length in Hperm. unfold entries in Hperm.
    destruct (listeners (getListenersOf n d).2 !! name) as [es'|] eqn:H';
      destruct (listeners d !! name) as [es|] eqn:H0; simpl in Hperm.
    + by rewrite Hperm.
    + apply (dom_getListenersOf n) in H0. congruence.
    + apply dom_getListenersOf in H'. congruence.
    + done.
  - by rewrite size_listeners_getListenersOf.
Qed.
End QueriesAfterLookup.

(** X18.  A lookup (hence a dispatch) never changes what [hasListeners]
    answers, nor whether a callback is registered; but it can change what
    [getListenerPriority] answers for a callback registered more than
    once under the name: with a sound cache, after the lookup of the name
    the priority reported is the highest one the callback has there. *)
Theorem queries_after_lookup (n : string) (l : Listener) (d : Dispatcher) :
  sorted_sound d →
  let d' := (getListenersOf n d).2 in
  (∀ eventName, hasListeners eventName d' = hasListeners eventName d) ∧
  (is_Some (getListenerPriority n l d') ↔ is_Some (getListenerPriority n l d)) ∧
  (∀ p, getListenerPriority n l d' = Some p →
     (∃ x, x ∈ entries n d ∧ listener x = l ∧ priority x = p) ∧
     (∀ x, x ∈ entries n d → listener x = l → (priority x ≤ p)%Z)).
Proof.
  intros Hs d'. unfold d'.
  pose proof (entries_getListenersOf_perm n d n) as Hperm.
  split; [intros eventName; apply hasListeners_getListenersOf|]. split.
  - rewrite !getListenerPriority_Some. by setoid_rewrite Hperm.
  - intros p Hp.
    assert (is_Some (listeners d !! n)) as Hknown.
    { destruct (listeners d !! n) eqn:Hn; [by eexists|].
      apply (dom_getListenersOf n) in Hn. unfold getListenerPriority in Hp.
      by rewrite Hn in Hp. }
    assert (desc (entries n (getListenersOf n d).2)) as Hdesc.
    { apply (sorted_sound_getListenersOf n d Hs).
      by apply sorted_getListenersOf_known. }
    unfold getListenerPriority in Hp. unfold entries in Hdesc, Hperm at 1.
    destruct (listeners (getListenersOf n d).2 !! n) as [es'|]; [|done].
    simpl in *. destruct (find _ es') as [found|] eqn:Hf; [|done].
    injection Hp as <-.
    apply find_Some in Hf as (i & Hi & Hl%bool_decide_eq_true & Hmin). split.
    + exists found. split; [|done]. rewrite <- Hperm.
      by eapply list_elem_of_lookup_2.
    + intros x Hx Hxl. rewrite <- Hperm in Hx.
      apply list_elem_of_lookup in Hx as [j Hj].
      destruct (lt_eq_lt_dec i j) as [[Hlt| ->]|Hlt].
      * by apply (desc_lookup es' i j).
      * rewrite Hi in Hj. injection Hj as ->. lia.
      * specialize (Hmin j x Hlt Hj). by apply bool_decide_eq_false in Hmin.
Qed.

(** ** Instances of the further theorems *)

Lemma session_reachable : reachable Session.st6.
Proof.
  apply (reachable_removeListener Session.st5 "x" 1).
  apply (reachable_getListeners Session.st4 0 (Some "x")).
  apply (reachable_addListener Session.st3 "x" 1 7); [|cbv; lia].
  apply (reachable_addListener Session.st2 "x" 0 5); [|cbv; lia].
  apply (reachable_function Session.st1).
  apply (reachable_function Session.st0).
  apply reachable_new.
Defined.

Lemma scenario_quiet f e (w : World Scenario.Heap) :
  console (Scenario.call f e w).2 = console w.
Proof. unfold Scenario.call. by repeat case_match. Defined.

Lemma getListeners_all_witness :
  truthy None = None ∧
  listeners Scenario.abc !! "" = None ∧
  ∃ m d', getListeners 1 None Scenario.abc = (Return (AllMap m), d') ∧
          NoDup m.*1.
Proof.
  split; [reflexivity|]. split; [reflexivity|].
  destruct (getListeners_all Scenario.abc 0 None eq_refl eq_refl)
    as (m & d' & Hg & Hnd & _).
  by exists m, d'.
Defined.

Lemma two_left_reachable : reachable Session.two_left.
Proof.
  apply (reachable_removeListener Session.three_looked_up "x" 2).
  apply (reachable_getListeners Session.three 0 (Some "x")).
  apply (reachable_addListener
           {| dispatcher :=
                addListener "x" 1 9 (addListener "x" 0 5 new_Dispatcher);
              allocated := 3 |} "x" 2 7); [|cbv; lia].
  apply (reachable_addListener
           {| dispatcher := addListener "x" 0 5 new_Dispatcher;
              allocated := 3 |} "x" 1 9); [|cbv; lia].
  apply (reachable_addListener
           {| dispatcher := new_Dispatcher; allocated := 3 |} "x" 0 5);
    [|cbv; lia].
  apply (reachable_function {| dispatcher := new_Dispatcher; allocated := 2 |}).
  apply (reachable_function {| dispatcher := new_Dispatcher; allocated := 1 |}).
  apply (reachable_function {| dispatcher := new_Dispatcher; allocated := 0 |}).
  apply reachable_new.
Defined.

Lemma lookup_descending_always_witness :
  reachable Session.two_left ∧
  entries "x" (dispatcher Session.three) = [Entry 0 5; Entry 1 9; Entry 2 7] ∧
  entries "x" (dispatcher Session.two_left) = [Entry 1 9; Entry 0 5] ∧
  sorted (dispatcher Session.two_left) !! "x" = Some true ∧
  (getListenersOf "x" (dispatcher Session.two_left)).1 = [1; 0] ∧
  desc (entries "x" (getListenersOf "x" (dispatcher Session.two_left)).2).
Proof.
  split; [exact two_left_reachable|]. split; [reflexivity|].
  split; [reflexivity|]. split; [reflexivity|]. split; [reflexivity|].
  by destruct (lookup_descending_always Session.two_left "x" two_left_reachable)
    as (_ & H & _).
Defined.

Lemma removeListener_removes_one_witness :
  entries "x" Session.around = [Entry 0 5; Entry 1 3; Entry 0 1] ∧
  entries "x" (removeListener "x" 0 Session.around) = [Entry 1 3; Entry 0 1] ∧
  entries "x" (removeListener "x" 1 Session.around) = [Entry 0 5; Entry 0 1].
Proof.
  split; [reflexivity|].
  destruct (removeListener_removes_one "x" 0 Session.around) as (H0 & _).
  destruct (removeListener_removes_one "x" 1 Session.around) as (H1 & _).
  split.
  - apply (H0 [] (Entry 0 5) [Entry 1 3; Entry 0 1]); [reflexivity..|].
    intros y Hy. by apply elem_of_nil in Hy.
  - apply (H1 [Entry 0 5] (Entry 1 3) [Entry 0 1]); [reflexivity..|].
    intros y ->%list_elem_of_singleton. discriminate.
Defined.

Lemma hasListeners_exact_witness :
  reachable Session.st6 ∧
  (hasListeners None (dispatcher Session.st6) = false ↔
     listeners (dispatcher Session.st6) = ∅).
Proof.
  split; [exact session_reachable|].
  by destruct (hasListeners_exact Session.st6 session_reachable) as (_ & H & _).
Defined.

Lemma add_then_remove_listener_witness :
  no_empty_array Scenario.abc ∧
  (∀ x, x ∈ entries "x" Scenario.abc → listener x ≠ Scenario.failing) ∧
  listeners (removeListener "x" Scenario.failing
               (addListener "x" Scenario.failing 3 Scenario.abc))
  = listeners Scenario.abc.
Proof.
  assert (no_empty_array Scenario.abc) as Hne.
  { apply (well_formed_run_ops Scenario.abc_ops 3).
    intros name l p Hin. repeat (apply elem_of_cons in Hin as [[= _ -> _]|Hin]);
      [cbv; lia..|by apply elem_of_nil in Hin]. }
  assert (∀ x, x ∈ entries "x" Scenario.abc → listener x ≠ Scenario.failing)
    as Habs.
  { intros x Hin. repeat (apply elem_of_cons in Hin as [->|Hin]);
      [done..|by apply elem_of_nil in Hin]. }
  split; [done|]. split; [done|].
  by destruct (add_then_remove_listener "x" Scenario.failing 3 Scenario.abc
                 Hne Habs) as (H & _).
Defined.

Lemma duplicate_registration_witness :
  is_Some (getListenerPriority "x" 0 (addListener "x" 0 5 new_Dispatcher)) ∧
  getListenerPriority "x" 0 Session.twice = Some 5%Z ∧
  entries "x" (removeListener "x" 0 Session.twice) = [Entry 0 9].
Proof.
  assert (is_Some (getListenerPriority "x" 0 (addListener "x" 0 5 new_Dispatcher)))
    as Hreg by (by eexists).
  split; [done|].
  destruct (duplicate_registration "x" 0 9 (addListener "x" 0 5 new_Dispatcher)
              Hreg) as (_ & Hp & Hrem & _).
  split; [exact Hp|exact Hrem].
Defined.

Lemma addSubscriber_registers_witness :
  addSubscriber Scenario.subscriber Scenario.store
    = (Return (), (addSubscriber Scenario.subscriber Scenario.store).2) ∧
  allocated (addSubscriber Scenario.subscriber Scenario.store).2 = 6.
Proof.
  split; [reflexivity|].
  by destruct (addSubscriber_registers Scenario.subscriber Scenario.store
                 (addSubscriber Scenario.subscriber Scenario.store).2 eq_refl)
    as (H & _).
Defined.

Lemma addSubscriber_twice_witness :
  well_formed Scenario.store ∧
  addSubscriber Scenario.subscriber Scenario.store
    = (Return (), (addSubscriber Scenario.subscriber Scenario.store).2) ∧
  addSubscriber Scenario.subscriber
      (addSubscriber Scenario.subscriber Scenario.store).2
    = (Return (),
       (addSubscriber Scenario.subscriber
          (addSubscriber Scenario.subscriber Scenario.store).2).2) ∧
  length (entries "e2"
            (removeSubscriber Scenario.subscriber
               (dispatcher
                  (addSubscriber Scenario.subscriber
                     (addSubscriber Scenario.subscriber Scenario.store).2).2)))
  = 1.
Proof.
  assert (well_formed Scenario.store) as Hwf.
  { apply (well_formed_run_ops [OpAdd "e1" Scenario.A 3] 4).
    intros name l p [= _ -> _]%list_elem_of_singleton. cbv. lia. }
  split; [done|]. split; [reflexivity|]. split; [reflexivity|].
  destruct (addSubscriber_twice Scenario.subscriber Scenario.store
              (addSubscriber Scenario.subscriber Scenario.store).2
              (addSubscriber Scenario.subscriber
                 (addSubscriber Scenario.subscriber Scenario.store).2).2
              Hwf eq_refl eq_refl) as (_ & Hlen & _).
  apply (Hlen "e2"). by eexists.
Defined.



Lemma dispatch_console_witness :
  default (Scenario.constructor_name ()) (Some "x") ≠ "" ∧
  (∀ f e0 w0, console (Scenario.call f e0 w0).2 = console w0) ∧
  console (Scenario.run Simple 0 () (Some "x")
             (Scenario.world Scenario.abc)).2 = [Log "x"] ∧
  console (Scenario.run Node 0 () (Some "x")
             (Scenario.world Scenario.failing_first)).2
  = [LogError "x" (UserError 0)].
Proof.
  split; [discriminate|]. split; [exact scenario_quiet|].
  split.
  - destruct (dispatch_console Scenario.constructor_name
                Scenario.isStoppableEvent Scenario.isPropagationStopped
                Scenario.call Simple 0 () (Some "x") (Scenario.world Scenario.abc)
                ltac:(discriminate) scenario_quiet) as (_ & H).
    exact (H eq_refl).
  - destruct (dispatch_console Scenario.constructor_name
                Scenario.isStoppableEvent Scenario.isPropagationStopped
                Scenario.call Node 0 () (Some "x")
                (Scenario.world Scenario.failing_first)
                ltac:(discriminate) scenario_quiet) as (H & _).
    destruct (H ltac:(discriminate)) as [Hc _]. exact Hc.
Defined.

Lemma queries_after_lookup_witness :
  sorted_sound Session.twice ∧
  getListenerPriority "x" 0 Session.twice = Some 5%Z ∧
  getListenerPriority "x" 0 (getListenersOf "x" Session.twice).2 = Some 9%Z ∧
  (∀ x, x ∈ entries "x" Session.twice → listener x = 0 → (priority x ≤ 9)%Z).
Proof.
  assert (sorted_sound Session.twice) as Hs.
  { apply sorted_sound_addListener, sorted_sound_addListener, sorted_sound_new. }
  split; [done|]. split; [reflexivity|]. split; [reflexivity|].
  destruct (queries_after_lookup "x" 0 Session.twice Hs) as (_ & _ & Hmax).
  by destruct (Hmax 9%Z eq_refl) as [_ H].
Defined.

Lemma addSubscriber_completion_witness :
  (addSubscriber Session.faulty Session.st0).1 = Throw TypeError ∧
  entries "e1" (dispatcher (addSubscriber Session.faulty Session.st0).2)
    = [Entry 0 0] ∧
  removeSubscriber Session.faulty
    (dispatcher (addSubscriber Session.faulty Session.st0).2)
  = dispatcher (addSubscriber Session.faulty Session.st0).2.
Proof.
  destruct (addSubscriber_completion Session.faulty Session.st0) as (_ & Hfail).
  destruct (Hfail ltac:(discriminate)) as (Herr & _ & Hnoop).
  split; [exact Herr|]. split; [reflexivity|]. by apply Hnoop.
Defined.
